(** * xaitk-saliency: occlusion-based object-detector saliency

    A shallow embedding of
    [xaitk_saliency/impls/gen_object_detector_blackbox_sal/occlusion_based.py]:
    the helper [_dets_to_formatted_mat], which aligns the detections of a
    batch of images into one padded tensor, and the method
    [PerturbationOcclusion._generate] that drives it.

    Numbers.  The scores and box coordinates of the source are Python
    floats.  The code never does arithmetic on them: it compares a score
    with [0], takes the [max] of a list, looks a value up with [==] and
    stores the constants [0] and [1].  On finite floats these operations
    agree with the same operations on rationals, so a score is a [Q] here
    (NaN and the infinities are outside the model). *)

From Stdlib Require Import String List QArith Lia Bool PeanoNat Permutation.
Import ListNotations.
Close Scope Q_scope.
Open Scope string_scope.
Open Scope nat_scope.
Open Scope list_scope.

(** ** Exceptions and the error monad *)

(** The exceptions the modelled code can raise. *)
Inductive exn : Type :=
| KeyError (k : string)        (* [score_dict[label]] on an absent label *)
| ValueError_max_empty         (* [max()] of an empty sequence *)
| ValueError_not_in_list       (* [list.index] of an absent value *)
| ValueError_shape             (* numpy: array dimensions do not match *)
| ValueError_reshape.          (* numpy: cannot reshape to that size *)

Inductive result (A : Type) : Type :=
| Ok (a : A)
| Raise (e : exn).
Arguments Ok {A} a.
Arguments Raise {A} e.

Definition bind {A B : Type} (c : result A) (k : A -> result B) : result B :=
  match c with
  | Ok a => k a
  | Raise e => Raise e
  end.

Notation "x <- c ;; k" := (bind c (fun x => k))
  (at level 61, c at next level, right associativity).
Notation "' p <- c ;; k" := (bind c (fun x => let p := x in k))
  (at level 61, p pattern, c at next level, right associativity).

(** A [for] loop whose body can raise: the state is threaded through the
    items, and the first exception ends the loop. *)
Fixpoint for_each {S X : Type} (body : S -> X -> result S) (xs : list X) (s : S)
  : result S :=
  match xs with
  | [] => Ok s
  | x :: rest => s' <- body s x ;; for_each body rest s'
  end.

(** ** Data model *)

Definition label := string.

(** [AxisAlignedBoundingBox]: the two corner vertices, as coordinate lists. *)
Record AxisAlignedBoundingBox : Type := mkBox {
  min_vertex : list Q;
  max_vertex : list Q
}.

(** A Python [dict] from labels to scores.  The iteration order of its keys
    is what fixes the column order, so it is an association list in
    insertion order. *)
Definition score_map := list (label * Q).

Definition detection : Type := AxisAlignedBoundingBox * score_map.

(** A 2-D numpy array: its rows, and its number of columns (which numpy
    keeps even when there is no row). *)
Record ndarray2 : Type := mk2 {
  data : list (list Q);
  ncols : nat
}.

Definition nrows (m : ndarray2) : nat := length (data m).

(** A stacked numpy array: the matrices and the shape. *)
Record ndarray3 : Type := mk3 {
  slices : list (list (list Q));
  shape : list nat
}.

(** ** Python and numpy primitives *)

(** [list(d.keys())] *)
Definition keys (d : score_map) : list label := map fst d.

(** [d[k]], raising [KeyError] *)
Fixpoint getitem (d : score_map) (k : label) : result Q :=
  match d with
  | [] => Raise (KeyError k)
  | (k', v) :: rest => if String.eqb k' k then Ok v else getitem rest k
  end.

(** [score > 0] *)
Definition Qpos (q : Q) : bool := negb (Qle_bool q 0).

(** [a < b] *)
Definition Qltb (a b : Q) : bool := negb (Qle_bool b a).

(** [max(l)]: the first greatest item. *)
Fixpoint max_from (m : Q) (l : list Q) : Q :=
  match l with
  | [] => m
  | x :: rest => max_from (if Qltb m x then x else m) rest
  end.

Definition py_max (l : list Q) : result Q :=
  match l with
  | [] => Raise ValueError_max_empty
  | x :: rest => Ok (max_from x rest)
  end.

(** [max] of a list of integers. *)
Definition py_max_nat (l : list nat) : result nat :=
  match l with
  | [] => Raise ValueError_max_empty
  | x :: rest => Ok (fold_left Nat.max rest x)
  end.

(** [l.index(v)]: the position of the first item equal to [v]. *)
Fixpoint py_index (l : list Q) (v : Q) : result nat :=
  match l with
  | [] => Raise ValueError_not_in_list
  | x :: rest =>
      if Qeq_bool x v then Ok 0 else i <- py_index rest v ;; Ok (S i)
  end.

(** [l[i] = v] for [i] in range. *)
Fixpoint setitem (l : list Q) (i : nat) (v : Q) : list Q :=
  match l, i with
  | [], _ => []
  | _ :: rest, 0 => v :: rest
  | x :: rest, S j => x :: setitem rest j v
  end.

(** [np.array([]).reshape(0, c)] *)
Definition empty2 (c : nat) : ndarray2 := mk2 [] c.

(** [a.shape = (0, c)]: allowed when [a] holds no value. *)
Definition set_shape0 (a : ndarray2) (c : nat) : result ndarray2 :=
  if nrows a * ncols a =? 0 then Ok (empty2 c) else Raise ValueError_reshape.

(** [np.vstack((a, row))] for a list [row] *)
Definition vstack_row (a : ndarray2) (row : list Q) : result ndarray2 :=
  if ncols a =? length row then Ok (mk2 (data a ++ [row]) (ncols a))
  else Raise ValueError_shape.

(** [np.vstack((a, b))] *)
Definition vstack (a b : ndarray2) : result ndarray2 :=
  if ncols a =? ncols b then Ok (mk2 (data a ++ data b) (ncols a))
  else Raise ValueError_shape.

(** [np.tile(row, (n, 1))] *)
Definition tile (row : list Q) (n : nat) : ndarray2 :=
  mk2 (repeat row n) (length row).

(** [np.asarray] of a list of 2-D arrays. *)
Definition same_shape (a b : ndarray2) : bool :=
  (nrows a =? nrows b) && (ncols a =? ncols b).

Definition asarray (l : list ndarray2) : result ndarray3 :=
  match l with
  | [] => Ok (mk3 [] [0])
  | m :: rest =>
      if forallb (same_shape m) rest
      then Ok (mk3 (map data l) [length l; nrows m; ncols m])
      else Raise ValueError_shape
  end.

(** Modelled from the spec: [format_detection] of
    [xaitk_saliency/utils/detection.py], which the repository imports but
    whose source is not part of the files at hand.  It concatenates, row by
    row, the box coordinates, the objectness and the class scores; an
    omitted objectness is 1 for every detection; it fails when the numbers
    of boxes, of score rows and of objectness entries are not all equal. *)
Definition format_detection (bbox_mat classification_mat : ndarray2)
    (objectness : option (list Q)) : result ndarray2 :=
  let obj := match objectness with
             | Some o => o
             | None => repeat 1%Q (nrows bbox_mat)
             end in
  if (nrows bbox_mat =? length obj) && (nrows bbox_mat =? nrows classification_mat)
  then Ok (mk2 (map (fun r => fst (fst r) ++ [snd (fst r)] ++ snd r)
                    (combine (combine (data bbox_mat) obj) (data classification_mat)))
               (ncols bbox_mat + 1 + ncols classification_mat))
  else Raise ValueError_shape.

(** ** [_dets_to_formatted_mat] *)

(** The local variables of the function. *)
Record locals : Type := mkLocals {
  labels : list label;
  num_classes : nat;
  dets_mat_list : list ndarray2;
  img_bboxes : ndarray2;
  img_scores : ndarray2;
  img_objectness : list Q
}.

(** [scores = []; for label in labels: scores.append(score_dict[label])] *)
Fixpoint gather_scores (lbls : list label) (score_dict : score_map)
  : result (list Q) :=
  match lbls with
  | [] => Ok []
  | l :: rest =>
      v <- getitem score_dict l ;;
      vs <- gather_scores rest score_dict ;;
      Ok (v :: vs)
  end.

(** Lines 167-171, "single class score only": from the objectness and the
    score list to the new objectness and score list. *)
Definition single_class_score (obj : Q) (scores : list Q) : result (Q * list Q) :=
  if length (filter Qpos scores) =? 1 then
    conf <- py_max scores ;;
    i <- py_index scores conf ;;
    Ok (conf, setitem scores i 1%Q)
  else Ok (obj, scores).

(** [dets_mat_list[0:img_idx] = [np.array([]).reshape(0, 4+1+num_classes)
    for _ in range(img_idx)]] *)
Definition reset_previous (img_idx nc : nat) (l : list ndarray2) : list ndarray2 :=
  map (fun _ => empty2 (4 + 1 + nc)) (seq 0 img_idx) ++ skipn img_idx l.

(** Lines 153-161: the labels are taken while [num_classes] is 0. *)
Definition discover_labels (img_idx : nat) (score_dict : score_map) (s : locals)
  : result locals :=
  if num_classes s =? 0 then
    let lbls := keys score_dict in
    let nc := length lbls in
    sc <- set_shape0 (img_scores s) nc ;;
    Ok (mkLocals lbls nc (reset_previous img_idx nc (dets_mat_list s))
                 (img_bboxes s) sc (img_objectness s))
  else Ok s.

(** The body of [for det in img_dets]. *)
Definition det_body (img_idx : nat) (s : locals) (det : detection) : result locals :=
  let obj := 1%Q in
  let bbox := fst det in
  let score_dict := snd det in
  s1 <- discover_labels img_idx score_dict s ;;
  scores <- gather_scores (labels s1) score_dict ;;
  os <- single_class_score obj scores ;;
  bb <- vstack_row (img_bboxes s1) (min_vertex bbox ++ max_vertex bbox) ;;
  sc <- vstack_row (img_scores s1) (snd os) ;;
  Ok (mkLocals (labels s1) (num_classes s1) (dets_mat_list s1)
               bb sc (img_objectness s1 ++ [fst os])).

(** The body of [for img_idx, img_dets in enumerate(dets)]. *)
Definition img_body (s : locals) (it : nat * list detection) : result locals :=
  let img_idx := fst it in
  let img_dets := snd it in
  bb <- set_shape0 (mk2 [] 0) 4 ;;
  sc <- set_shape0 (mk2 [] 0) (num_classes s) ;;
  s1 <- for_each (det_body img_idx) img_dets
          (mkLocals (labels s) (num_classes s) (dets_mat_list s) bb sc []) ;;
  m <- format_detection (img_bboxes s1) (img_scores s1) (Some (img_objectness s1)) ;;
  Ok (mkLocals (labels s1) (num_classes s1) (dets_mat_list s1 ++ [m])
               (img_bboxes s1) (img_scores s1) (img_objectness s1)).

(** [enumerate] *)
Definition enumerate {X : Type} (xs : list X) : list (nat * X) :=
  combine (seq 0 (length xs)) xs.

Definition init_locals : locals :=
  mkLocals [] 0 [] (mk2 [] 0) (mk2 [] 0) [].

(** Lines 135-177: the loop over the images. *)
Definition build_mats (dets : list (list detection)) : result locals :=
  for_each img_body (enumerate dets) init_locals.

(** [pad_row = np.ones(4+1+num_classes); pad_row[4] = 0] *)
Definition pad_row (nc : nat) : list Q :=
  setitem (repeat 1%Q (4 + 1 + nc)) 4 0%Q.

(** Lines 185-187: each matrix gets its padding rows. *)
Fixpoint pad_all (max_dets nc : nat) (l : list ndarray2) : result (list ndarray2) :=
  match l with
  | [] => Ok []
  | dets_mat :: rest =>
      let size_diff := max_dets - nrows dets_mat in
      m <- vstack dets_mat (tile (pad_row nc) size_diff) ;;
      ms <- pad_all max_dets nc rest ;;
      Ok (m :: ms)
  end.

(** Lines 179-188. *)
Definition pad_mats (s : locals) : result ndarray3 :=
  let num_dets := map nrows (dets_mat_list s) in
  max_dets <- py_max_nat num_dets ;;
  padded <- pad_all max_dets (num_classes s) (dets_mat_list s) ;;
  asarray padded.

Definition _dets_to_formatted_mat (dets : list (list detection)) : result ndarray3 :=
  s <- build_mats dets ;;
  pad_mats s.


(** ** [PerturbationOcclusion._generate] *)

(** The collaborators are values of the instance ([self._perturber],
    [self._generator], [self.fill], [self._threads]) or arguments
    ([blackbox]); [occlude_image_batch] is imported from
    [xaitk_saliency/utils/masking.py], whose source is not part of the
    files at hand, and is taken as given too.  Each of them can raise. *)
Section Generate.
Variables Image Masks Fill Saliency : Type.
Variable perturber : Image -> result Masks.
Variable generator : ndarray2 -> ndarray3 -> Masks -> result Saliency.
Variable occlude_image_batch :
  Image -> Masks -> option Fill -> option Z -> result (list Image).
Variable fill : option Fill.
Variable threads : option Z.

Definition _generate (ref_image : Image) (bboxes scores : ndarray2)
    (blackbox : list Image -> result (list (list detection)))
    (objectness : option (list Q)) : result Saliency :=
  ref_dets_mat <- format_detection bboxes scores objectness ;;
  pert_masks <- perturber ref_image ;;
  occluded <- occlude_image_batch ref_image pert_masks fill threads ;;
  pert_dets <- blackbox occluded ;;
  pert_dets_mat <- _dets_to_formatted_mat pert_dets ;;
  generator ref_dets_mat pert_dets_mat pert_masks.
End Generate.

(** ** Notions used in the statements *)

(** The keys of the first detection, in iteration order, whose score map
    is not empty; no label when there is none. *)
Fixpoint first_nonempty_keys (ds : list detection) : list label :=
  match ds with
  | [] => []
  | d :: rest =>
      match keys (snd d) with
      | [] => first_nonempty_keys rest
      | ks => ks
      end
  end.

(** The label list in the words of the specification: the keys found in
    the first image that has a detection. *)
Fixpoint labels_of_first_nonempty_image (dets : list (list detection))
  : list label :=
  match dets with
  | [] => []
  | [] :: rest => labels_of_first_nonempty_image rest
  | (d :: _) :: _ => keys (snd d)
  end.

(** The row a detection contributes under the label list [lbls]: box,
    objectness, class scores (lines 163-175 followed by the formatter). *)
Definition det_row (lbls : list label) (det : detection) : result (list Q) :=
  scores <- gather_scores lbls (snd det) ;;
  os <- single_class_score 1%Q scores ;;
  Ok ((min_vertex (fst det) ++ max_vertex (fst det)) ++ [fst os] ++ snd os).

Definition rows_of (lbls : list label) (img : list detection)
    (rows : list (list Q)) : Prop :=
  Forall2 (fun d r => det_row lbls d = Ok r) img rows.

(** The matrix kept for an image: the rows of its detections, or no row. *)
Definition mat_ok (lbls : list label) (img : list detection) (m : ndarray2) : Prop :=
  ncols m = 4 + 1 + length lbls /\ (rows_of lbls img (data m) \/ data m = []).

(** The locals after the images [done]. *)
Definition img_inv (done : list (list detection)) (s : locals) : Prop :=
  num_classes s = length (labels s) /\
  labels s = first_nonempty_keys (concat done) /\
  Forall2 (mat_ok (labels s)) done (dets_mat_list s).

(** The three arrays of the current image hold, row for row, what the
    detections [seen] give under the labels [lbls]. *)
Definition arrays_in_step (lbls : list label) (seen : list detection) (s : locals)
  : Prop :=
  exists oss : list (Q * list Q),
    Forall2 (fun d os => exists scores,
                 gather_scores lbls (snd d) = Ok scores /\
                 single_class_score 1%Q scores = Ok os) seen oss /\
    data (img_bboxes s) =
      map (fun d => min_vertex (fst d) ++ max_vertex (fst d)) seen /\
    img_objectness s = map fst oss /\
    data (img_scores s) = map snd oss.

(** The locals inside the loop over the detections of an image, after the
    images [done] and the detections [seen] of the current one. *)
Definition det_inv (done : list (list detection)) (seen : list detection)
    (s : locals) : Prop :=
  num_classes s = length (labels s) /\
  labels s = first_nonempty_keys (concat done ++ seen) /\
  Forall2 (mat_ok (labels s)) done (dets_mat_list s) /\
  ncols (img_bboxes s) = 4 /\
  ncols (img_scores s) = num_classes s /\
  nrows (img_bboxes s) = length seen /\
  length (img_objectness s) = length seen /\
  (nrows (img_scores s) < length seen \/ arrays_in_step (labels s) seen s).

(** The matrix of an image after line 187. *)
Definition padded (max_dets nc : nat) (m : ndarray2) : ndarray2 :=
  mk2 (data m ++ repeat (pad_row nc) (max_dets - nrows m)) (ncols m).

(** Row counts.  After the images [done]: the matrices kept have, at
    their largest, as many rows as the largest image has detections, and
    as long as no label is held no image had more than one detection. *)
Definition small (imgs : list (list detection)) : Prop :=
  Forall (fun img => length img <= 1) imgs.

Definition img_cnt (done : list (list detection)) (s : locals) : Prop :=
  length (dets_mat_list s) = length done /\
  (num_classes s = 0 -> small done) /\
  list_max (map nrows (dets_mat_list s)) = list_max (map (@length detection) done).

(** Inside the loop over the detections: the earlier matrices are as they
    were, or they have been emptied while the current image has a score
    row. *)
Definition det_cnt (done : list (list detection)) (seen : list detection)
    (s : locals) : Prop :=
  length (dets_mat_list s) = length done /\
  nrows (img_bboxes s) = length seen /\
  (num_classes s = 0 -> small done /\ nrows (img_scores s) <= 1) /\
  (list_max (map nrows (dets_mat_list s)) = list_max (map (@length detection) done) \/
   (list_max (map nrows (dets_mat_list s)) = 0 /\ small done /\
    1 <= nrows (img_scores s))).

(** An absent label, or arrays that do not fit. *)
Definition lookup_or_shape_error (e : exn) : Prop :=
  e = ValueError_shape \/ exists k, e = KeyError k.

(** Every detection processed while labels are held has all of them. *)
Fixpoint well_labelled (cur : list label) (ds : list detection) : Prop :=
  match ds with
  | [] => True
  | d :: rest =>
      match cur with
      | [] => well_labelled (keys (snd d)) rest
      | _ => incl cur (keys (snd d)) /\ well_labelled cur rest
      end
  end.

(** The labels that will be held once the detections [ds] are processed,
    when [cur] are held now. *)
Definition labels_ahead (cur : list label) (ds : list detection) : list label :=
  match cur with
  | [] => first_nonempty_keys ds
  | _ => cur
  end.

(** A detection without the entries of its score map whose label is not
    in [lbls]. *)
Definition known (lbls : list label) (kv : label * Q) : bool :=
  existsb (String.eqb (fst kv)) lbls.

Definition restrict_det (lbls : list label) (det : detection) : detection :=
  (fst det, filter (known lbls) (snd det)).

(** A score list with exactly one strictly positive entry, [c] at
    position [i]. *)
Definition exactly_one_positive (scores : list Q) (i : nat) (c : Q) : Prop :=
  nth_error scores i = Some c /\ (0 < c)%Q /\
  forall j x, nth_error scores j = Some x -> (0 < x)%Q -> j = i.

Definition nonpositive (l : list Q) : Prop := Forall (fun x => (x <= 0)%Q) l.

(** ** Sample data *)

Definition box_a : AxisAlignedBoundingBox := mkBox [0; 0]%Q [2; 3]%Q.
Definition box_b : AxisAlignedBoundingBox := mkBox [1; 1]%Q [4; 5]%Q.

Definition fresh_image (lbls : list label) : locals :=
  mkLocals lbls (length lbls) [] (empty2 4) (empty2 (length lbls)) [].

(** Two images with one detection each; the detection of the first image
    has an empty score map. *)
Definition batch_late_labels : list (list detection) :=
  [[(box_a, [])]; [(box_b, [("a", 1 # 2)%Q])]].

(** Two images with one detection each; the second detection has no score
    for ["dog"]. *)
Definition batch_missing_label : list (list detection) :=
  [[(box_a, [("cat", 9 # 10); ("dog", 1 # 10)]%Q)]; [(box_b, [("cat", 1 # 2)%Q])]].

(** Sample collaborators: one mask, a detector that finds nothing in an
    occluded image, and a generator that hands back the two matrices it
    is given. *)
Definition one_mask (_ : unit) : result unit := Ok tt.

Definition occlude_once (_ : unit) (_ : unit) (_ : option unit) (_ : option Z)
  : result (list unit) := Ok [tt].

Definition blind_detector (imgs : list unit) : result (list (list detection)) :=
  Ok (map (fun _ => []) imgs).

Definition echo_generator (ref : ndarray2) (pert : ndarray3) (_ : unit)
  : result (ndarray2 * ndarray3) := Ok (ref, pert).

(** One reference detection with scores for two classes. *)
Definition ref_bboxes : ndarray2 := mk2 [[0; 0; 2; 3]%Q] 4.
Definition ref_scores : ndarray2 := mk2 [[9 # 10; 1 # 10]%Q] 2.

(** ** Notions used for the rows of the tensor *)

(** A detection row: four box coordinates, a strictly positive objectness
    at index 4, and one score per class. *)
Definition row_wf (nc : nat) (r : list Q) : Prop :=
  length r = 4 + 1 + nc /\ (0 < nth 4 r 0)%Q.

Definition mats_wf (nc : nat) (mats : list ndarray2) : Prop :=
  Forall (fun m => Forall (row_wf nc) (data m)) mats.

(** The arrays of the current image and the matrices of the earlier ones,
    inside the loop over the detections of image [img_idx]. *)
Definition arrays_wf (img_idx : nat) (s : locals) : Prop :=
  length (dets_mat_list s) = img_idx /\
  ncols (img_bboxes s) = 4 /\
  ncols (img_scores s) = num_classes s /\
  Forall (fun b => length b = 4) (data (img_bboxes s)) /\
  Forall (fun o => (0 < o)%Q) (img_objectness s) /\
  Forall (fun sc => length sc = num_classes s) (data (img_scores s)) /\
  mats_wf (num_classes s) (dets_mat_list s).

(** ** Notions used for batches whose detections all carry scores *)

(** No detection of the batch has an empty score map. *)
Definition labelled (dets : list (list detection)) : Prop :=
  Forall (Forall (fun d : detection => keys (snd d) <> [])) dets.

(** After the images [done]: every matrix has one row per detection, and
    no detection has been met as long as no label is held. *)
Definition img_kept (done : list (list detection)) (s : locals) : Prop :=
  Forall2 (fun img m => nrows m = length img) done (dets_mat_list s) /\
  (num_classes s = 0 -> Forall (fun img => img = []) done).

Definition det_kept (done : list (list detection)) (seen : list detection)
    (s : locals) : Prop :=
  Forall2 (fun img m => nrows m = length img) done (dets_mat_list s) /\
  nrows (img_bboxes s) = length seen /\
  (num_classes s = 0 -> Forall (fun img => img = []) done /\ seen = []).

(** A detection with a box of two 2-D vertices and a non-empty score map
    that has every label of [lbls]. *)
Definition det_wf (lbls : list label) (d : detection) : Prop :=
  length (min_vertex (fst d) ++ max_vertex (fst d)) = 4 /\
  keys (snd d) <> [] /\
  incl lbls (keys (snd d)).

(** A batch all of whose detections are such, for the labels of its first
    detection. *)
Definition batch_wf (dets : list (list detection)) : Prop :=
  Forall (Forall (det_wf (first_nonempty_keys (concat dets)))) dets.

(** The three arrays of the current image have the same number of rows. *)
Definition arrays_sync (s : locals) : Prop :=
  num_classes s = length (labels s) /\
  ncols (img_bboxes s) = 4 /\
  ncols (img_scores s) = num_classes s /\
  nrows (img_bboxes s) = length (img_objectness s) /\
  nrows (img_bboxes s) = nrows (img_scores s) /\
  (num_classes s = 0 -> nrows (img_bboxes s) = 0).

(** Three images; all detections are scored for ["cat"] and ["dog"], the
    last one with the keys in the other order. *)
Definition batch_cat_dog : list (list detection) :=
  [[]; [(box_a, [("cat", 9 # 10); ("dog", 0)]%Q);
        (box_b, [("cat", 1 # 5); ("dog", 3 # 10)]%Q)];
   [(box_b, [("dog", 0); ("cat", 0)]%Q)]].

(** ** Notions used for the order of score-map entries *)

(** Two detections with the same box and the same scores, the entries of
    the score map possibly in another order. *)
Definition same_scores (d d' : detection) : Prop :=
  fst d' = fst d /\ NoDup (keys (snd d)) /\ Permutation (snd d) (snd d').

(** As long as no label is held, the two streams of detections give the
    same label list. *)
Definition agree (cur : list label) (ds ds' : list detection) : Prop :=
  cur = [] -> first_nonempty_keys ds' = first_nonempty_keys ds.

(** [batch_cat_dog] with the score map of its second detection written in
    the other order. *)
Definition batch_dog_cat : list (list detection) :=
  [[]; [(box_a, [("cat", 9 # 10); ("dog", 0)]%Q);
        (box_b, [("dog", 3 # 10); ("cat", 1 # 5)]%Q)];
   [(box_b, [("cat", 0); ("dog", 0)]%Q)]].

(** A perturber that yields no mask: no image to occlude. *)
Definition occlude_none (_ : unit) (_ : unit) (_ : option unit) (_ : option Z)
  : result (list unit) := Ok [].

(** ** Configuration of [PerturbationOcclusion] *)

(** [self.fill]: an integer or a sequence of integers. *)
Inductive fill_color : Type :=
| FillInt (c : Z)
| FillSeq (cs : list Z).

(** The instance and the configuration dictionaries.  The perturber and
    generator implementations, their nested (JSON) configurations, the
    sets of implementations returned by [get_impls] and the exceptions of
    the configuration helpers belong to other packages and are taken as
    given. *)
Section Config.
Variables Perturber Generator Json Impls Ext : Type.

Record PerturbationOcclusion : Type := mkPerturbationOcclusion {
  _perturber : Perturber;
  _generator : Generator;
  _threads : option Z;
  fill : option fill_color
}.

(** Lines 43-53. *)
Definition __init__ (perturber : Perturber) (generator : Generator)
    (threads : option Z) : PerturbationOcclusion :=
  mkPerturbationOcclusion perturber generator threads None.

(** What a configuration dictionary holds under a key: a nested
    configuration, an integer or [None], or an instance. *)
Inductive cfg_value : Type :=
| VJson (j : Json)
| VInt (t : option Z)
| VPerturber (p : Perturber)
| VGenerator (g : Generator).

Inductive cfg_exn : Type :=
| CfgKeyError (k : string)
| External (e : Ext).

Definition config : Type := list (string * cfg_value).

Definition cfg_keys (c : config) : list string := map fst c.

(** [c[k]] *)
Fixpoint cfg_getitem (c : config) (k : string) : cfg_exn + cfg_value :=
  match c with
  | [] => inl (CfgKeyError k)
  | (k', v) :: rest => if String.eqb k' k then inr v else cfg_getitem rest k
  end.

(** [c[k] = v]: an existing key keeps its place, a new one goes last. *)
Fixpoint cfg_setitem (c : config) (k : string) (v : cfg_value) : config :=
  match c with
  | [] => [(k, v)]
  | (k', v') :: rest =>
      if String.eqb k' k then (k', v) :: rest
      else (k', v') :: cfg_setitem rest k v
  end.

(** [smqtk_core.configuration] and the parent class. *)
Variable to_config_dict_p : Perturber -> Json.
Variable to_config_dict_g : Generator -> Json.
Variable from_config_dict_p : cfg_value -> Impls -> cfg_exn + Perturber.
Variable from_config_dict_g : cfg_value -> Impls -> cfg_exn + Generator.
Variable make_default_config : Impls -> Json.
Variable PerturbImage_get_impls : Impls.
Variable GenerateDetectorProposalSaliency_get_impls : Impls.
Variable super_get_default_config : config.
Variable super_from_config : config -> bool -> cfg_exn + PerturbationOcclusion.

(** Lines 84-89. *)
Definition get_default_config : config :=
  let cfg := super_get_default_config in
  let cfg := cfg_setitem cfg "perturber"
               (VJson (make_default_config PerturbImage_get_impls)) in
  let cfg := cfg_setitem cfg "generator"
               (VJson (make_default_config
                         GenerateDetectorProposalSaliency_get_impls)) in
  cfg.

(** Lines 91-106. *)
Definition from_config (config_dict : config) (merge_default : bool)
  : cfg_exn + PerturbationOcclusion :=
  match cfg_getitem config_dict "perturber" with
  | inl e => inl e
  | inr v =>
      match from_config_dict_p v PerturbImage_get_impls with
      | inl e => inl e
      | inr p =>
          let config_dict := cfg_setitem config_dict "perturber" (VPerturber p) in
          match cfg_getitem config_dict "generator" with
          | inl e => inl e
          | inr v =>
              match from_config_dict_g v
                      GenerateDetectorProposalSaliency_get_impls with
              | inl e => inl e
              | inr g =>
                  let config_dict :=
                    cfg_setitem config_dict "generator" (VGenerator g) in
                  super_from_config config_dict merge_default
              end
          end
      end
  end.

(** Lines 108-113. *)
Definition get_config (self : PerturbationOcclusion) : config :=
  [("perturber", VJson (to_config_dict_p (_perturber self)));
   ("generator", VJson (to_config_dict_g (_generator self)));
   ("threads", VInt (_threads self))].
End Config.

Arguments VJson {Perturber Generator Json} j.
Arguments VInt {Perturber Generator Json} t.
Arguments VPerturber {Perturber Generator Json} p.
Arguments VGenerator {Perturber Generator Json} g.
Arguments CfgKeyError {Ext} k.
Arguments External {Ext} e.

(** Sample helpers: implementations and nested configurations are names,
    a nested configuration gives back the implementation of that name, and
    the parent class calls the constructor with the entries of the
    dictionary. *)
Definition name_of (n : string) : string := n.

Definition by_name (v : cfg_value string string string) (_ : unit)
  : cfg_exn unit + string :=
  match v with
  | VJson j => inr j
  | _ => inl (External tt)
  end.

Definition construct (c : config string string string) (_ : bool)
  : cfg_exn unit + PerturbationOcclusion string string :=
  match cfg_getitem string string string unit c "perturber",
        cfg_getitem string string string unit c "generator",
        cfg_getitem string string string unit c "threads" with
  | inr (VPerturber p), inr (VGenerator g), inr (VInt t) =>
      inr (__init__ string string p g t)
  | _, _, _ => inl (External tt)
  end.

(** A parent default configuration, as the parent class derives it from
    the constructor. *)
Definition parent_default : config string string string :=
  [("perturber", VInt None); ("generator", VInt None); ("threads", VInt (Some 0%Z))].

Definition default_of (_ : unit) : string := "{type: null}".
(** * Properties *)

(** ** Scores *)

Lemma Qpos_spec (q : Q) : Qpos q = true <-> (0 < q)%Q.
Proof.
  unfold Qpos. rewrite negb_true_iff. split; intro H.
  - apply Qnot_le_lt. intro Hle. apply Qle_bool_iff in Hle. congruence.
  - destruct (Qle_bool q 0) eqn:E; [|reflexivity].
    apply Qle_bool_iff in E. exfalso. exact (Qlt_not_le _ _ H E).
Qed.

Lemma Qpos_false (q : Q) : Qpos q = false <-> (q <= 0)%Q.
Proof.
  unfold Qpos. rewrite negb_false_iff. apply Qle_bool_iff.
Qed.

Lemma Qltb_spec (a b : Q) : Qltb a b = true <-> (a < b)%Q.
Proof.
  unfold Qltb. rewrite negb_true_iff. split; intro H.
  - apply Qnot_le_lt. intro Hle. apply Qle_bool_iff in Hle. congruence.
  - destruct (Qle_bool b a) eqn:E; [|reflexivity].
    apply Qle_bool_iff in E. exfalso. exact (Qlt_not_le _ _ H E).
Qed.


Lemma filter_Qpos_nonpositive (l : list Q) :
  nonpositive l <-> filter Qpos l = [].
Proof.
  unfold nonpositive. induction l as [|x l IH]; simpl.
  - split; [reflexivity | constructor].
  - destruct (Qpos x) eqn:E.
    + split; [|discriminate]. intro H. inversion H; subst.
      apply Qpos_spec in E. exfalso. eapply Qlt_not_le; eassumption.
    + rewrite <- IH. apply Qpos_false in E. split; intro H.
      * now inversion H.
      * now constructor.
Qed.

(** The shape of such a list: non-positive entries around [c]. *)
Lemma exactly_one_positive_split (scores : list Q) (i : nat) (c : Q) :
  exactly_one_positive scores i c <->
  exists pre post, scores = pre ++ c :: post /\ length pre = i /\
                   (0 < c)%Q /\ nonpositive pre /\ nonpositive post.
Proof.
  split.
  - intros (Hn & Hc & Huniq).
    destruct (nth_error_split _ _ Hn) as (pre & post & -> & Hlen).
    exists pre, post. repeat split; auto.
    + apply Forall_forall. intros x Hx.
      destruct (In_nth_error _ _ Hx) as [j Hj].
      destruct (Qlt_le_dec 0 x) as [Hpos|]; [|assumption]. exfalso.
      assert (Hjlt : j < length pre) by (apply nth_error_Some; congruence).
      assert (j = i); [|lia].
      apply (Huniq j x); [|assumption]. now rewrite nth_error_app1.
    + apply Forall_forall. intros x Hx.
      destruct (In_nth_error _ _ Hx) as [j Hj].
      destruct (Qlt_le_dec 0 x) as [Hpos|]; [|assumption]. exfalso.
      assert (length pre + S j = i); [|lia].
      apply (Huniq _ x); [|assumption].
      rewrite nth_error_app2 by lia.
      replace (length pre + S j - length pre) with (S j) by lia. exact Hj.
  - intros (pre & post & -> & Hlen & Hc & Hpre & Hpost). subst i.
    repeat split; auto.
    + rewrite nth_error_app2 by lia. now rewrite Nat.sub_diag.
    + intros j x Hj Hx.
      destruct (Nat.lt_trichotomy j (length pre)) as [Hlt|[Heq|Hgt]]; auto; exfalso.
      * rewrite nth_error_app1 in Hj by assumption.
        apply nth_error_In in Hj.
        unfold nonpositive in Hpre. rewrite Forall_forall in Hpre.
        eapply Qlt_not_le; eauto.
      * rewrite nth_error_app2 in Hj by lia.
        destruct (j - length pre) as [|k] eqn:E; [lia|]. simpl in Hj.
        apply nth_error_In in Hj.
        unfold nonpositive in Hpost. rewrite Forall_forall in Hpost.
        eapply Qlt_not_le; eauto.
Qed.

(** The test of line 168 is that notion. *)
Lemma count_positive_one (scores : list Q) :
  length (filter Qpos scores) = 1 <-> exists i c, exactly_one_positive scores i c.
Proof.
  split.
  - induction scores as [|x l IH]; simpl; [discriminate|].
    destruct (Qpos x) eqn:E.
    + simpl. intro H. exists 0, x. apply exactly_one_positive_split.
      exists [], l. repeat split; auto.
      * now apply Qpos_spec.
      * constructor.
      * apply filter_Qpos_nonpositive.
        destruct (filter Qpos l); [reflexivity | discriminate].
    + intro H. destruct (IH H) as (i & c & Hi).
      apply exactly_one_positive_split in Hi.
      destruct Hi as (pre & post & -> & Hlen & Hc & Hpre & Hpost).
      exists (S i), c. apply exactly_one_positive_split.
      exists (x :: pre), post. simpl. repeat split; auto.
      constructor; [now apply Qpos_false | assumption].
  - intros (i & c & Hi). apply exactly_one_positive_split in Hi.
    destruct Hi as (pre & post & -> & Hlen & Hc & Hpre & Hpost).
    rewrite filter_app. simpl.
    apply filter_Qpos_nonpositive in Hpre, Hpost. rewrite Hpre, Hpost.
    apply Qpos_spec in Hc. now rewrite Hc.
Qed.

Lemma max_from_nonpositive (post : list Q) (c : Q) :
  (0 < c)%Q -> nonpositive post -> max_from c post = c.
Proof.
  intros Hc. induction post as [|x l IH]; simpl; [reflexivity|].
  intro H. inversion H; subst.
  destruct (Qltb c x) eqn:E.
  - apply Qltb_spec in E. exfalso.
    apply (Qlt_not_le 0 x); [eapply Qlt_trans; eassumption | assumption].
  - now apply IH.
Qed.

Lemma max_from_single (pre post : list Q) (m c : Q) :
  (m <= 0)%Q -> (0 < c)%Q -> nonpositive pre -> nonpositive post ->
  max_from m (pre ++ c :: post) = c.
Proof.
  intros Hm Hc Hpre Hpost. revert m Hm.
  induction pre as [|x l IH]; simpl; intros m Hm.
  - assert (E : Qltb m c = true)
      by (apply Qltb_spec; eapply Qle_lt_trans; eassumption).
    rewrite E. now apply max_from_nonpositive.
  - inversion Hpre; subst. apply IH; [assumption|].
    now destruct (Qltb m x).
Qed.

Lemma py_max_single (pre post : list Q) (c : Q) :
  (0 < c)%Q -> nonpositive pre -> nonpositive post ->
  py_max (pre ++ c :: post) = Ok c.
Proof.
  intros Hc Hpre Hpost. destruct pre as [|x l]; simpl.
  - now rewrite max_from_nonpositive.
  - inversion Hpre; subst. now rewrite max_from_single.
Qed.

Lemma py_index_single (pre post : list Q) (c : Q) :
  (0 < c)%Q -> nonpositive pre ->
  py_index (pre ++ c :: post) c = Ok (length pre).
Proof.
  intros Hc Hpre. induction pre as [|x l IH]; simpl.
  - now rewrite Qeq_bool_refl.
  - inversion Hpre; subst.
    destruct (Qeq_bool x c) eqn:E.
    + apply Qeq_bool_iff in E. exfalso.
      apply (Qlt_not_le 0 c Hc). now rewrite <- E.
    + rewrite IH by assumption. reflexivity.
Qed.

Lemma setitem_app (pre post : list Q) (c v : Q) :
  setitem (pre ++ c :: post) (length pre) v = pre ++ v :: post.
Proof.
  induction pre as [|x l IH]; simpl; [reflexivity | now rewrite IH].
Qed.

(** What lines 167-171 compute, in both branches of the test. *)
Lemma single_class_score_one (obj : Q) (pre post : list Q) (c : Q) :
  (0 < c)%Q -> nonpositive pre -> nonpositive post ->
  single_class_score obj (pre ++ c :: post) = Ok (c, pre ++ 1%Q :: post).
Proof.
  intros Hc Hpre Hpost. unfold single_class_score.
  assert (Hcount : length (filter Qpos (pre ++ c :: post)) = 1).
  { apply count_positive_one. exists (length pre), c.
    apply exactly_one_positive_split. exists pre, post. auto. }
  rewrite Hcount. simpl.
  rewrite py_max_single by assumption. simpl.
  rewrite py_index_single by assumption. simpl.
  now rewrite setitem_app.
Qed.

Lemma single_class_score_other (obj : Q) (scores : list Q) :
  length (filter Qpos scores) <> 1 ->
  single_class_score obj scores = Ok (obj, scores).
Proof.
  intro H. unfold single_class_score.
  apply Nat.eqb_neq in H. now rewrite H.
Qed.

Lemma single_class_score_total (obj : Q) (scores : list Q) :
  exists os, single_class_score obj scores = Ok os /\
             length (snd os) = length scores.
Proof.
  destruct (Nat.eq_dec (length (filter Qpos scores)) 1) as [H|H].
  - apply count_positive_one in H. destruct H as (i & c & H).
    apply exactly_one_positive_split in H.
    destruct H as (pre & post & -> & _ & Hc & Hpre & Hpost).
    eexists. split; [now apply single_class_score_one|].
    simpl. now rewrite !length_app.
  - eexists. split; [now apply single_class_score_other | reflexivity].
Qed.

(** ** One detection *)

Lemma bind_Ok {A B : Type} (c : result A) (k : A -> result B) (b : B) :
  bind c k = Ok b -> exists a, c = Ok a /\ k a = Ok b.
Proof.
  destruct c as [a|e]; simpl; [eauto | discriminate].
Qed.

Ltac bind_inv H :=
  let a := fresh "a" in
  let Ha := fresh "Ha" in
  apply bind_Ok in H; destruct H as (a & Ha & H).

(** Label discovery either leaves the locals alone or replaces the labels,
    empties the score rows of the image and resets the earlier matrices. *)
Lemma discover_labels_Ok (img_idx : nat) (sd : score_map) (s s1 : locals) :
  discover_labels img_idx sd s = Ok s1 ->
  (num_classes s <> 0 /\ s1 = s) \/
  (num_classes s = 0 /\
   s1 = mkLocals (keys sd) (length (keys sd))
                 (reset_previous img_idx (length (keys sd)) (dets_mat_list s))
                 (img_bboxes s) (empty2 (length (keys sd))) (img_objectness s)).
Proof.
  unfold discover_labels. destruct (num_classes s =? 0) eqn:E.
  - apply Nat.eqb_eq in E. intro H. right. split; [assumption|].
    unfold set_shape0 in H.
    destruct (nrows (img_scores s) * ncols (img_scores s) =? 0);
      simpl in H; [|discriminate].
    now inversion H.
  - apply Nat.eqb_neq in E. intro H. left. split; [assumption|]. now inversion H.
Qed.

Lemma vstack_row_Ok (a r : ndarray2) (row : list Q) :
  vstack_row a row = Ok r ->
  ncols a = length row /\ r = mk2 (data a ++ [row]) (ncols a).
Proof.
  unfold vstack_row. destruct (ncols a =? length row) eqn:E; [|discriminate].
  apply Nat.eqb_eq in E. intro H. now inversion H.
Qed.

(** What a successful pass through the loop body has done. *)
Lemma det_body_Ok (img_idx : nat) (s s' : locals) (det : detection) :
  det_body img_idx s det = Ok s' ->
  exists s1 scores os,
    discover_labels img_idx (snd det) s = Ok s1 /\
    gather_scores (labels s1) (snd det) = Ok scores /\
    single_class_score 1%Q scores = Ok os /\
    ncols (img_bboxes s1) = length (min_vertex (fst det) ++ max_vertex (fst det)) /\
    ncols (img_scores s1) = length (snd os) /\
    s' = mkLocals (labels s1) (num_classes s1) (dets_mat_list s1)
           (mk2 (data (img_bboxes s1) ++ [min_vertex (fst det) ++ max_vertex (fst det)])
                (ncols (img_bboxes s1)))
           (mk2 (data (img_scores s1) ++ [snd os]) (ncols (img_scores s1)))
           (img_objectness s1 ++ [fst os]).
Proof.
  unfold det_body. intro H.
  bind_inv H. rename a into s1, Ha into H1.
  bind_inv H. rename a into scores, Ha into H2.
  bind_inv H. rename a into os, Ha into H3.
  bind_inv H. rename a into bb, Ha into H4.
  bind_inv H. rename a into sc, Ha into H5.
  apply vstack_row_Ok in H4, H5. destruct H4 as [H4 ->], H5 as [H5 ->].
  exists s1, scores, os. inversion H. auto 10.
Qed.

(** C4.  When the class scores of a detection, read in the order of the
    label list, have exactly one strictly positive entry, the loop body
    records that score as the objectness of the detection and records the
    score list with that entry replaced by 1.  When no entry or more than
    one entry is strictly positive, it records objectness 1 and the scores
    as they are. *)
Theorem single_dominant_class
    (img_idx : nat) (s s' : locals) (det : detection) (scores : list Q) :
  det_body img_idx s det = Ok s' ->
  gather_scores (labels s') (snd det) = Ok scores ->
  let earlier := if num_classes s =? 0 then [] else data (img_scores s) in
  (forall i c, exactly_one_positive scores i c ->
     img_objectness s' = img_objectness s ++ [c] /\
     data (img_scores s') = earlier ++ [setitem scores i 1%Q]) /\
  ((forall i c, ~ exactly_one_positive scores i c) ->
     img_objectness s' = img_objectness s ++ [1%Q] /\
     data (img_scores s') = earlier ++ [scores]).
Proof.
  intros H Hg earlier.
  apply det_body_Ok in H.
  destruct H as (s1 & scores' & os & H1 & H2 & H3 & _ & _ & ->).
  simpl in Hg. rewrite H2 in Hg. inversion Hg; subst scores'. simpl.
  assert (Hs1 : img_objectness s1 = img_objectness s /\
                data (img_scores s1) = earlier).
  { subst earlier. apply discover_labels_Ok in H1.
    destruct H1 as [[Hnc ->]|[Hnc ->]].
    - apply Nat.eqb_neq in Hnc. now rewrite Hnc.
    - rewrite Hnc. auto. }
  destruct Hs1 as [-> ->]. split.
  - intros i c Hone. apply exactly_one_positive_split in Hone.
    destruct Hone as (pre & post & -> & <- & Hc & Hpre & Hpost).
    rewrite single_class_score_one in H3 by assumption.
    inversion H3; subst os. simpl. now rewrite setitem_app.
  - intros Hnone.
    rewrite single_class_score_other in H3.
    + inversion H3; subst os. auto.
    + intro Hcount. apply count_positive_one in Hcount.
      destruct Hcount as (i & c & Hic). exact (Hnone i c Hic).
Qed.


Lemma single_dominant_class_witness :
  let s := fresh_image [] in
  let det := (box_a, [("cat", 9 # 10); ("dog", 0)]%Q) in
  let s' := mkLocals ["cat"; "dog"] 2 []
              (mk2 [[0; 0; 2; 3]%Q] 4) (mk2 [[1; 0]%Q] 2) [(9 # 10)%Q] in
  let scores := [9 # 10; 0]%Q in
  det_body 0 s det = Ok s' /\
  gather_scores (labels s') (snd det) = Ok scores /\
  (forall i c, exactly_one_positive scores i c ->
     img_objectness s' = img_objectness s ++ [c] /\
     data (img_scores s') = [] ++ [setitem scores i 1%Q]) /\
  ((forall i c, ~ exactly_one_positive scores i c) ->
     img_objectness s' = img_objectness s ++ [1%Q] /\
     data (img_scores s') = [] ++ [scores]).
Proof.
  intros s det s' scores.
  split; [reflexivity|]. split; [reflexivity|].
  apply (single_dominant_class 0 s s' det scores); reflexivity.
Defined.

(** ** Applying the normalization twice *)

(** C2 as stated fails: a detection normalized to objectness 9/10 gets
    objectness 1 when the normalization is applied to it again. *)
Lemma normalization_not_idempotent :
  single_class_score 1%Q [9 # 10; 0]%Q = Ok ((9 # 10)%Q, [1; 0]%Q) /\
  single_class_score (9 # 10)%Q [1; 0]%Q = Ok (1%Q, [1; 0]%Q) /\
  ~ (1 == 9 # 10)%Q.
Proof.
  split; [reflexivity|]. split; [reflexivity|]. discriminate.
Qed.

(** C2, amended.  Applying the normalization to a detection that it has
    already normalized leaves the class scores as they are.  The objectness
    stays as it is when the scores did not have exactly one strictly
    positive entry; when they had, the second application sets the
    objectness to 1, the score now held by the one-hot class. *)
Theorem normalization_twice (obj obj1 : Q) (scores scores1 : list Q) :
  single_class_score obj scores = Ok (obj1, scores1) ->
  single_class_score obj1 scores1 =
    Ok (if length (filter Qpos scores) =? 1 then 1%Q else obj1, scores1).
Proof.
  intro H. destruct (length (filter Qpos scores) =? 1) eqn:E.
  - apply Nat.eqb_eq in E. apply count_positive_one in E.
    destruct E as (i & c & Hic). apply exactly_one_positive_split in Hic.
    destruct Hic as (pre & post & -> & _ & Hc & Hpre & Hpost).
    rewrite single_class_score_one in H by assumption.
    inversion H; subst. now apply single_class_score_one.
  - apply Nat.eqb_neq in E. pose proof E as E'.
    rewrite single_class_score_other in H by assumption.
    inversion H; subst. now apply single_class_score_other.
Qed.

Lemma normalization_twice_witness :
  single_class_score 1%Q [9 # 10; 0]%Q = Ok ((9 # 10)%Q, [1; 0]%Q) /\
  single_class_score (9 # 10)%Q [1; 0]%Q =
    Ok (if length (filter Qpos [9 # 10; 0]%Q) =? 1 then 1%Q else (9 # 10)%Q,
        [1; 0]%Q).
Proof.
  split; [reflexivity|].
  apply (normalization_twice 1%Q (9 # 10)%Q [9 # 10; 0]%Q [1; 0]%Q).
  reflexivity.
Defined.

(** ** The loop over the detections of an image *)

Lemma first_nonempty_keys_app (xs ys : list detection) :
  first_nonempty_keys (xs ++ ys) =
  match first_nonempty_keys xs with
  | [] => first_nonempty_keys ys
  | ks => ks
  end.
Proof.
  induction xs as [|d xs IH]; simpl; [reflexivity|].
  destruct (keys (snd d)); [exact IH | reflexivity].
Qed.

Lemma first_nonempty_keys_one (d : detection) :
  first_nonempty_keys [d] = keys (snd d).
Proof.
  simpl. now destruct (keys (snd d)).
Qed.

Lemma reset_previous_all (lbls : list label) (done : list (list detection))
    (mats : list ndarray2) :
  length mats = length done ->
  Forall2 (mat_ok lbls) done (reset_previous (length done) (length lbls) mats).
Proof.
  intro Hlen. unfold reset_previous.
  rewrite skipn_all2 by lia. rewrite app_nil_r. clear Hlen.
  assert (Hall : forall k,
             Forall2 (mat_ok lbls) done
               (map (fun _ => empty2 (4 + 1 + length lbls)) (seq k (length done)))).
  { induction done as [|img done IH]; intro k; simpl; constructor.
    - split; [reflexivity | now right].
    - apply IH. }
  apply Hall.
Qed.

Lemma det_body_inv (done : list (list detection)) (seen : list detection)
    (s s' : locals) (det : detection) :
  det_inv done seen s ->
  det_body (length done) s det = Ok s' ->
  det_inv done (seen ++ [det]) s'.
Proof.
  intros (Hnc & Hl & Hm & Hbc & Hsc & Hbr & Hol & Hrows) H.
  apply det_body_Ok in H.
  destruct H as (s1 & scores & os & H1 & H2 & H3 & Hb & Hs & ->).
  apply discover_labels_Ok in H1. unfold nrows in *.
  destruct H1 as [[Hne ->] | [Hz ->]]; unfold det_inv, nrows; simpl.
  - (* the labels are held already *)
    assert (Hk : first_nonempty_keys (concat done ++ seen ++ [det]) = labels s).
    { rewrite app_assoc, first_nonempty_keys_app, <- Hl.
      destruct (labels s); [simpl in Hnc; lia | reflexivity]. }
    rewrite Hk, !length_app. simpl.
    split; [assumption|]. split; [reflexivity|]. split; [assumption|].
    split; [assumption|]. split; [assumption|].
    split; [lia|]. split; [lia|].
    destruct Hrows as [Hlt | (oss & Hf & Hbd & Ho & Hsd)]; [left; lia|].
    right. exists (oss ++ [os]). simpl. split.
    + apply Forall2_app; [assumption|]. constructor; [eauto | constructor].
    + rewrite Hbd, Ho, Hsd, !map_app. auto.
  - (* the labels are taken from this detection *)
    assert (Hnil : labels s = [])
      by (destruct (labels s); [reflexivity | simpl in Hnc; lia]).
    assert (Hk : first_nonempty_keys (concat done ++ seen ++ [det])
                 = keys (snd det)).
    { rewrite app_assoc, first_nonempty_keys_app, <- Hl, Hnil.
      apply first_nonempty_keys_one. }
    rewrite Hk, !length_app. simpl.
    split; [reflexivity|]. split; [reflexivity|].
    split.
    { apply reset_previous_all. symmetry. exact (Forall2_length Hm). }
    split; [assumption|]. split; [reflexivity|].
    split; [lia|]. split; [lia|].
    destruct seen as [|d0 seen]; [right | left; simpl; lia].
    destruct Hrows as [Hlt | (oss & Hf & Hbd & Ho & Hsd)]; [simpl in Hlt; lia|].
    inversion Hf; subst oss. simpl in *.
    exists [os]. simpl. split.
    + constructor; [eauto | constructor].
    + rewrite Hbd, Ho. auto.
Qed.

Lemma det_loop_inv (done : list (list detection)) (rest seen : list detection)
    (s s' : locals) :
  det_inv done seen s ->
  for_each (det_body (length done)) rest s = Ok s' ->
  det_inv done (seen ++ rest) s'.
Proof.
  revert seen s. induction rest as [|d rest IH]; intros seen s Hinv H; simpl in H.
  - inversion H; subst. now rewrite app_nil_r.
  - bind_inv H.
    replace (seen ++ d :: rest) with ((seen ++ [d]) ++ rest)
      by (now rewrite <- app_assoc).
    eapply IH; [|exact H]. eapply det_body_inv; eassumption.
Qed.

(** ** The loop over the images *)

Lemma format_detection_Ok (b sc m : ndarray2) (o : list Q) :
  format_detection b sc (Some o) = Ok m ->
  nrows b = length o /\ nrows b = nrows sc /\
  ncols m = ncols b + 1 + ncols sc /\
  data m = map (fun r => fst (fst r) ++ [snd (fst r)] ++ snd r)
               (combine (combine (data b) o) (data sc)).
Proof.
  unfold format_detection.
  destruct ((nrows b =? length o) && (nrows b =? nrows sc)) eqn:E; [|discriminate].
  apply andb_true_iff in E. destruct E as [E1 E2].
  apply Nat.eqb_eq in E1, E2. intro H. inversion H. auto.
Qed.

Lemma arrays_in_step_rows (lbls : list label) (seen : list detection)
    (oss : list (Q * list Q)) :
  Forall2 (fun d os => exists scores,
               gather_scores lbls (snd d) = Ok scores /\
               single_class_score 1%Q scores = Ok os) seen oss ->
  rows_of lbls seen
    (map (fun r => fst (fst r) ++ [snd (fst r)] ++ snd r)
       (combine (combine (map (fun d => min_vertex (fst d) ++ max_vertex (fst d)) seen)
                         (map fst oss))
                (map snd oss))).
Proof.
  unfold rows_of. induction 1 as [|d os seen oss (scores & Hg & Hs) _ IH]; simpl.
  - constructor.
  - constructor; [|exact IH].
    unfold det_row. rewrite Hg. simpl. rewrite Hs. reflexivity.
Qed.

Lemma img_body_inv (done : list (list detection)) (img : list detection)
    (s s' : locals) :
  img_inv done s ->
  img_body s (length done, img) = Ok s' ->
  img_inv (done ++ [img]) s'.
Proof.
  intros (Hnc & Hl & Hm) H. unfold img_body in H. simpl in H.
  bind_inv H. rename a into s1, Ha into Hloop.
  bind_inv H. rename a into m, Ha into Hfmt. inversion H; subst s'; clear H.
  apply (det_loop_inv done img []) in Hloop.
  - destruct Hloop as (Hnc1 & Hl1 & Hm1 & Hbc & Hsc & Hbr & Hol & Hrows).
    apply format_detection_Ok in Hfmt.
    destruct Hfmt as (Ho & Hsr & Hcols & Hdata). simpl in *.
    unfold img_inv. simpl. split; [assumption|]. split.
    + now rewrite concat_app, Hl1; simpl; rewrite app_nil_r.
    + apply Forall2_app; [assumption|]. constructor; [|constructor].
      split; [lia|]. left.
      destruct Hrows as [Hlt | (oss & Hf & Hbd & Hod & Hsd)]; [lia|].
      rewrite Hdata, Hbd, Hod, Hsd. now apply arrays_in_step_rows.
  - unfold det_inv, nrows. simpl. rewrite app_nil_r.
    repeat (split; [assumption || reflexivity|]).
    right. exists []. simpl. repeat split. constructor.
Qed.

Lemma img_loop_inv (rest done : list (list detection)) (s s' : locals) :
  img_inv done s ->
  for_each img_body (combine (seq (length done) (length rest)) rest) s = Ok s' ->
  img_inv (done ++ rest) s'.
Proof.
  revert done s. induction rest as [|img rest IH]; intros done s Hinv H; simpl in H.
  - inversion H; subst. now rewrite app_nil_r.
  - bind_inv H.
    replace (done ++ img :: rest) with ((done ++ [img]) ++ rest)
      by (now rewrite <- app_assoc).
    apply (IH _ a); [eapply img_body_inv; eassumption|].
    rewrite length_app. simpl. now rewrite Nat.add_1_r.
Qed.

(** What lines 135-177 leave in the locals. *)
Lemma build_mats_inv (dets : list (list detection)) (s : locals) :
  build_mats dets = Ok s -> img_inv dets s.
Proof.
  intro H. apply (img_loop_inv dets [] init_locals); [|exact H].
  unfold img_inv. simpl. repeat split. constructor.
Qed.

(** ** Padding *)

Lemma length_setitem (l : list Q) (i : nat) (v : Q) :
  length (setitem l i v) = length l.
Proof.
  revert i. induction l as [|x l IH]; intros [|i]; simpl; auto.
Qed.

Lemma length_pad_row (nc : nat) : length (pad_row nc) = 4 + 1 + nc.
Proof.
  unfold pad_row. now rewrite length_setitem, repeat_length.
Qed.

Lemma pad_row_eq (nc : nat) : pad_row nc = [1; 1; 1; 1; 0]%Q ++ repeat 1%Q nc.
Proof. reflexivity. Qed.

Lemma fold_left_max (l : list nat) (x : nat) :
  fold_left Nat.max l x = Nat.max x (list_max l).
Proof.
  revert x. induction l as [|y l IH]; intro x; simpl.
  - now rewrite Nat.max_0_r.
  - now rewrite IH, Nat.max_assoc.
Qed.

Lemma py_max_nat_cons (x : nat) (l : list nat) :
  py_max_nat (x :: l) = Ok (list_max (x :: l)).
Proof.
  simpl. now rewrite fold_left_max.
Qed.

Lemma pad_all_Ok (max_dets nc : nat) (mats : list ndarray2) :
  Forall (fun m => ncols m = 4 + 1 + nc) mats ->
  pad_all max_dets nc mats = Ok (map (padded max_dets nc) mats).
Proof.
  induction 1 as [|m mats Hm _ IH]; [reflexivity|].
  cbn [pad_all map]. unfold vstack, tile. cbn [ncols data].
  rewrite length_pad_row, Hm, Nat.eqb_refl. cbn [bind].
  rewrite IH. cbn [bind]. unfold padded. now rewrite Hm.
Qed.

Lemma nrows_padded (max_dets nc : nat) (m : ndarray2) :
  nrows m <= max_dets -> nrows (padded max_dets nc m) = max_dets.
Proof.
  unfold padded, nrows. cbn [data]. rewrite length_app, repeat_length.
  intro H. lia.
Qed.

Lemma asarray_padded (max_dets nc : nat) (mats : list ndarray2) :
  mats <> [] ->
  Forall (fun m => ncols m = 4 + 1 + nc) mats ->
  Forall (fun m => nrows m <= max_dets) mats ->
  asarray (map (padded max_dets nc) mats) =
    Ok (mk3 (map (fun m => data m ++ repeat (pad_row nc) (max_dets - nrows m)) mats)
            [length mats; max_dets; 4 + 1 + nc]).
Proof.
  intros Hne Hc Hr. destruct mats as [|m mats]; [congruence|].
  inversion Hc as [|? ? Hcm Hcs]; inversion Hr as [|? ? Hrm Hrs]; subst.
  unfold asarray. cbn [map].
  assert (Hall : forallb (same_shape (padded max_dets nc m))
                   (map (padded max_dets nc) mats) = true).
  { apply forallb_forall. intros p Hp. apply in_map_iff in Hp.
    destruct Hp as (m' & <- & Hin).
    rewrite Forall_forall in Hcs, Hrs.
    unfold same_shape. rewrite !nrows_padded by auto.
    simpl. rewrite Hcm, (Hcs m' Hin), !Nat.eqb_refl. reflexivity. }
  rewrite Hall, nrows_padded by assumption.
  cbn [length ncols padded]. rewrite length_map, Hcm, map_map. reflexivity.
Qed.

(** Lines 179-188 succeed on a non-empty list of matrices that all have
    [4 + 1 + num_classes] columns, with this result. *)
Lemma pad_mats_Ok (s : locals) :
  dets_mat_list s <> [] ->
  Forall (fun m => ncols m = 4 + 1 + num_classes s) (dets_mat_list s) ->
  let max_dets := list_max (map nrows (dets_mat_list s)) in
  pad_mats s =
    Ok (mk3 (map (fun m => data m ++
                           repeat (pad_row (num_classes s)) (max_dets - nrows m))
                 (dets_mat_list s))
            [length (dets_mat_list s); max_dets; 4 + 1 + num_classes s]).
Proof.
  intros Hne Hc max_dets. unfold pad_mats.
  destruct (dets_mat_list s) as [|m mats] eqn:E; [congruence|].
  cbn [map]. rewrite py_max_nat_cons. cbn [bind].
  rewrite pad_all_Ok by assumption. cbn [bind].
  apply asarray_padded; [discriminate | assumption |].
  apply Forall_forall. intros m' Hin.
  assert (Hle : Forall (fun k => k <= list_max (nrows m :: map nrows mats))
                  (nrows m :: map nrows mats)) by now apply list_max_le.
  rewrite Forall_forall in Hle. apply Hle.
  change (In (nrows m') (map nrows (m :: mats))). now apply in_map.
Qed.

Lemma img_inv_ncols (dets : list (list detection)) (s : locals) :
  img_inv dets s ->
  Forall (fun m => ncols m = 4 + 1 + num_classes s) (dets_mat_list s).
Proof.
  intros (Hnc & _ & Hm). rewrite Hnc.
  induction Hm as [|img m imgs ms [Hcol _] _ IH]; constructor; assumption.
Qed.

(** The whole function, when it returns: the locals left by the loop and
    the tensor built from them. *)
Lemma dets_to_formatted_mat_Ok (dets : list (list detection)) (t : ndarray3) :
  _dets_to_formatted_mat dets = Ok t ->
  exists s,
    build_mats dets = Ok s /\ img_inv dets s /\ dets <> [] /\
    let max_dets := list_max (map nrows (dets_mat_list s)) in
    t = mk3 (map (fun m => data m ++
                           repeat (pad_row (num_classes s)) (max_dets - nrows m))
                 (dets_mat_list s))
            [length dets; max_dets; 4 + 1 + num_classes s].
Proof.
  unfold _dets_to_formatted_mat. intro H. bind_inv H. rename a into s.
  pose proof (build_mats_inv _ _ Ha) as Hinv.
  assert (Hlen : length (dets_mat_list s) = length dets).
  { destruct Hinv as (_ & _ & Hm). symmetry. exact (Forall2_length Hm). }
  exists s. split; [assumption|]. split; [assumption|].
  assert (Hmne : dets_mat_list s <> []).
  { intro E. unfold pad_mats in H. rewrite E in H. discriminate. }
  assert (Hne : dets <> []).
  { intros ->. destruct (dets_mat_list s); [congruence | discriminate]. }
  split; [assumption|]. cbv zeta.
  rewrite pad_mats_Ok in H;
    [| assumption | eapply img_inv_ncols; eassumption].
  inversion H. now rewrite Hlen.
Qed.

(** The loop never fails to leave a paddable list: once it has returned
    for a non-empty batch, the function returns. *)
Lemma dets_to_formatted_mat_returns (dets : list (list detection)) (s : locals) :
  dets <> [] -> build_mats dets = Ok s ->
  exists t, _dets_to_formatted_mat dets = Ok t.
Proof.
  intros Hne H. unfold _dets_to_formatted_mat. rewrite H. cbn [bind].
  pose proof (build_mats_inv _ _ H) as Hinv.
  eexists. apply pad_mats_Ok.
  - destruct Hinv as (_ & _ & Hm). apply Forall2_length in Hm.
    destruct (dets_mat_list s); [|discriminate].
    destruct dets; [congruence | discriminate].
  - eapply img_inv_ncols; eassumption.
Qed.

(** ** The empty batch and the batch of empty images *)

(** C8.  On a batch with no image the function raises (the [max] of line
    181 has nothing to take the maximum of) and returns no tensor. *)
Theorem empty_batch_raises :
  _dets_to_formatted_mat [] = Raise ValueError_max_empty.
Proof. reflexivity. Qed.

Lemma img_body_no_detection (s : locals) (img_idx : nat) :
  img_body s (img_idx, []) =
    Ok (mkLocals (labels s) (num_classes s)
          (dets_mat_list s ++ [empty2 (4 + 1 + num_classes s)])
          (empty2 4) (empty2 (num_classes s)) []).
Proof. reflexivity. Qed.

Lemma empty_images_loop (imgs : list (list detection)) (k : nat) (s : locals) :
  Forall (fun img => img = []) imgs ->
  exists s',
    for_each img_body (combine (seq k (length imgs)) imgs) s = Ok s' /\
    num_classes s' = num_classes s /\
    dets_mat_list s' =
      dets_mat_list s ++ map (fun _ => empty2 (4 + 1 + num_classes s)) imgs.
Proof.
  intro H. revert k s. induction H as [|img imgs -> _ IH]; intros k s.
  - exists s. simpl. now rewrite app_nil_r.
  - cbn [length seq combine for_each]. rewrite img_body_no_detection. cbn [bind].
    destruct (IH (S k) (mkLocals (labels s) (num_classes s)
          (dets_mat_list s ++ [empty2 (4 + 1 + num_classes s)])
          (empty2 4) (empty2 (num_classes s)) [])) as (s' & Hs' & Hnc & Hm).
    exists s'. split; [assumption|]. split; [assumption|].
    rewrite Hm. cbn [dets_mat_list num_classes map]. now rewrite <- app_assoc.
Qed.

(** C9.  On a non-empty batch in which no image has a detection the
    function returns: one empty slice per image, of shape
    (number of images, 0, 5). *)
Theorem all_empty_batch (dets : list (list detection)) :
  dets <> [] ->
  Forall (fun img => img = []) dets ->
  _dets_to_formatted_mat dets =
    Ok (mk3 (map (fun _ => []) dets) [length dets; 0; 5]).
Proof.
  intros Hne Hall.
  destruct (empty_images_loop dets 0 init_locals Hall) as (s & Hs & Hnc & Hm).
  unfold _dets_to_formatted_mat, build_mats, enumerate. rewrite Hs. cbn [bind].
  simpl in Hnc, Hm.
  assert (Hrows : map nrows (dets_mat_list s) = map (fun _ => 0) dets)
    by (rewrite Hm, map_map; reflexivity).
  assert (Hmax : list_max (map nrows (dets_mat_list s)) = 0).
  { rewrite Hrows. clear. induction dets; simpl; auto. }
  rewrite pad_mats_Ok.
  - rewrite Hmax, Hnc, Hm, map_map, length_map. reflexivity.
  - rewrite Hm. destruct dets; [congruence | discriminate].
  - rewrite Hm, Hnc. apply Forall_forall. intros m Hin.
    apply in_map_iff in Hin. now destruct Hin as (? & <- & _).
Qed.

Lemma all_empty_batch_witness :
  [[]; []; []] <> ([] : list (list detection)) /\
  Forall (fun img : list detection => img = []) [[]; []; []] /\
  _dets_to_formatted_mat [[]; []; []] = Ok (mk3 [[]; []; []] [3; 0; 5]).
Proof.
  split; [discriminate|].
  split; [repeat constructor|].
  apply (all_empty_batch [[]; []; []]); [discriminate | repeat constructor].
Defined.

(** ** The label list *)

Lemma first_nonempty_keys_no_detection (dets : list (list detection)) :
  Forall (fun img => img = []) dets -> first_nonempty_keys (concat dets) = [].
Proof.
  induction 1 as [|img dets -> _ IH]; simpl; auto.
Qed.

Lemma first_nonempty_keys_first_image (dets : list (list detection)) :
  labels_of_first_nonempty_image dets <> [] ->
  first_nonempty_keys (concat dets) = labels_of_first_nonempty_image dets.
Proof.
  induction dets as [|img dets IH]; simpl; [congruence|].
  destruct img as [|d img]; simpl; [exact IH|].
  destruct (keys (snd d)); [congruence | reflexivity].
Qed.

Lemma Forall2_In_r {A B : Type} (R : A -> B -> Prop) (l : list A) (l' : list B)
    (y : B) :
  Forall2 R l l' -> In y l' -> exists x, In x l /\ R x y.
Proof.
  induction 1 as [|a b l l' Hab _ IH]; simpl; [tauto|].
  intros [<-|Hin]; [eauto|].
  destruct (IH Hin) as (x & Hx & HR). eauto.
Qed.

Lemma padded_rows (lbls : list label) (img : list detection) (m : ndarray2)
    (k nc : nat) (r : list Q) :
  mat_ok lbls img m ->
  In r (data m ++ repeat (pad_row nc) k) ->
  r = pad_row nc \/ exists d, In d img /\ det_row lbls d = Ok r.
Proof.
  intros [_ Hrows] Hin. apply in_app_or in Hin. destruct Hin as [Hin|Hin].
  - right. destruct Hrows as [Hrows|Hnil].
    + exact (Forall2_In_r _ _ _ _ Hrows Hin).
    + rewrite Hnil in Hin. destruct Hin.
  - left. exact (repeat_spec _ _ _ Hin).
Qed.

(** C5 as stated fails: on [batch_late_labels] the first image has a
    detection, with no label, and the labels the function ends with are
    those of the second image. *)
Lemma labels_from_later_image :
  exists s,
    build_mats batch_late_labels = Ok s /\
    labels s = ["a"] /\ num_classes s = 1 /\
    labels_of_first_nonempty_image batch_late_labels = [] /\
    _dets_to_formatted_mat batch_late_labels =
      Ok (mk3 [[[1; 1; 1; 1; 0; 1]]; [[1; 1; 4; 5; 1 # 2; 1]]]%Q [2; 1; 6]).
Proof.
  eexists. split; [vm_compute; reflexivity|].
  repeat split; vm_compute; reflexivity.
Qed.

(** C5, amended.  When the function returns, its label list is the list
    of keys, in their iteration order, of the first detection in iteration
    order whose score map is not empty (this is the key list of the first
    image with a detection whenever that list is not empty); [num_classes]
    is its length; when no image has a detection the list is empty and
    [num_classes] is 0; and every row of every slice of the tensor is either
    the padding row or the row of a detection of that image with its class
    scores in the order of that one label list. *)
Theorem canonical_label_list (dets : list (list detection)) (t : ndarray3) :
  _dets_to_formatted_mat dets = Ok t ->
  exists s,
    build_mats dets = Ok s /\
    labels s = first_nonempty_keys (concat dets) /\
    (labels_of_first_nonempty_image dets <> [] ->
     labels s = labels_of_first_nonempty_image dets) /\
    num_classes s = length (labels s) /\
    (Forall (fun img => img = []) dets -> labels s = [] /\ num_classes s = 0) /\
    Forall2 (fun img slice =>
               forall r, In r slice ->
                 r = pad_row (num_classes s) \/
                 exists d, In d img /\ det_row (labels s) d = Ok r)
            dets (slices t).
Proof.
  intro H. apply dets_to_formatted_mat_Ok in H.
  destruct H as (s & Hb & Hinv & _ & ->). exists s.
  destruct Hinv as (Hnc & Hl & Hm).
  split; [assumption|]. split; [assumption|]. split.
  { intro Hne. rewrite Hl. now apply first_nonempty_keys_first_image. }
  split; [assumption|]. split.
  { intro Hall. rewrite Hnc, Hl, first_nonempty_keys_no_detection by assumption.
    auto. }
  cbn [slices].
  generalize (list_max (map nrows (dets_mat_list s))) as mx. intro mx.
  clear Hb Hl.
  induction Hm as [|img m imgs ms Hok _ IH]; cbn [map]; constructor.
  - intros r Hin. eapply padded_rows; eassumption.
  - exact IH.
Qed.

Lemma canonical_label_list_witness :
  _dets_to_formatted_mat batch_late_labels =
    Ok (mk3 [[[1; 1; 1; 1; 0; 1]]; [[1; 1; 4; 5; 1 # 2; 1]]]%Q [2; 1; 6]) /\
  exists s,
    build_mats batch_late_labels = Ok s /\
    labels s = first_nonempty_keys (concat batch_late_labels) /\
    (labels_of_first_nonempty_image batch_late_labels <> [] ->
     labels s = labels_of_first_nonempty_image batch_late_labels) /\
    num_classes s = length (labels s) /\
    (Forall (fun img => img = []) batch_late_labels ->
     labels s = [] /\ num_classes s = 0) /\
    Forall2 (fun img slice =>
               forall r, In r slice ->
                 r = pad_row (num_classes s) \/
                 exists d, In d img /\ det_row (labels s) d = Ok r)
            batch_late_labels
            [[[1; 1; 1; 1; 0; 1]]; [[1; 1; 4; 5; 1 # 2; 1]]]%Q.
Proof.
  split; [reflexivity|].
  apply (canonical_label_list batch_late_labels
           (mk3 [[[1; 1; 1; 1; 0; 1]]; [[1; 1; 4; 5; 1 # 2; 1]]]%Q [2; 1; 6])).
  reflexivity.
Defined.

(** ** Rows that are lost *)

(** C3 fails on [batch_late_labels]: the first image has one detection,
    with box (0, 0, 2, 3), and its slice of the tensor holds the padding
    row instead of a row built from that detection. *)
Theorem earlier_rows_dropped :
  _dets_to_formatted_mat batch_late_labels =
    Ok (mk3 [[pad_row 1]; [[1; 1; 4; 5; 1 # 2; 1]%Q]] [2; 1; 6]) /\
  pad_row 1 = [1; 1; 1; 1; 0; 1]%Q /\
  det_row [] (box_a, []) = Ok [0; 0; 2; 3; 1]%Q.
Proof.
  split; [vm_compute; reflexivity|]. split; reflexivity.
Qed.

(** C6 fails on [batch_late_labels]: every image has one detection, so
    every image reaches the maximum, and still the slice of the first image
    is made of one padding row. *)
Theorem padding_on_largest_image :
  map (@length detection) batch_late_labels = [1; 1] /\
  exists t,
    _dets_to_formatted_mat batch_late_labels = Ok t /\
    shape t = [2; 1; 6] /\
    nth 0 (slices t) [] = [pad_row 1].
Proof.
  split; [reflexivity|]. eexists.
  split; [vm_compute; reflexivity|]. split; reflexivity.
Qed.

(** ** Labels that a detection lacks *)

Lemma getitem_In (sd : score_map) (l : label) (v : Q) :
  getitem sd l = Ok v -> In l (keys sd).
Proof.
  induction sd as [|[k w] sd IH]; simpl; [discriminate|].
  destruct (String.eqb k l) eqn:E.
  - apply String.eqb_eq in E. auto.
  - auto.
Qed.

Lemma getitem_missing (sd : score_map) (l : label) :
  ~ In l (keys sd) -> getitem sd l = Raise (KeyError l).
Proof.
  induction sd as [|[k w] sd IH]; simpl; [reflexivity|].
  intro H. destruct (String.eqb k l) eqn:E.
  - apply String.eqb_eq in E. tauto.
  - apply IH. tauto.
Qed.

Lemma gather_scores_incl (lbls : list label) (sd : score_map) (scores : list Q) :
  gather_scores lbls sd = Ok scores -> incl lbls (keys sd).
Proof.
  revert scores. induction lbls as [|l lbls IH]; intros scores H; simpl in H.
  - intros x [].
  - bind_inv H. bind_inv H.
    intros x [<-|Hx]; [eapply getitem_In; eassumption | eapply IH; eassumption].
Qed.

(** The lookup of line 165 raises on the first label that the score map
    lacks. *)
Lemma gather_scores_missing (lbls : list label) (sd : score_map) (l : label) :
  In l lbls -> ~ In l (keys sd) ->
  exists k, In k lbls /\ ~ In k (keys sd) /\
            gather_scores lbls sd = Raise (KeyError k).
Proof.
  induction lbls as [|x lbls IH]; simpl; [tauto|].
  intros Hin Hmiss.
  destruct (getitem sd x) as [v|e] eqn:E.
  - destruct Hin as [->|Hin].
    + apply getitem_In in E. tauto.
    + destruct (IH Hin Hmiss) as (k & Hk & Hn & Hg).
      exists k. rewrite Hg. auto.
  - destruct (in_dec string_dec x (keys sd)) as [Hx|Hx].
    + exfalso. clear -E Hx. induction sd as [|[k w] sd IHsd]; simpl in *; [tauto|].
      destruct (String.eqb k x) eqn:Ek; [discriminate|].
      apply String.eqb_neq in Ek. destruct Hx; [congruence | auto].
    + rewrite getitem_missing in E by assumption. inversion E.
      exists x. auto.
Qed.

Lemma det_body_labels (img_idx : nat) (s s' : locals) (d : detection) :
  num_classes s = length (labels s) ->
  det_body img_idx s d = Ok s' ->
  num_classes s' = length (labels s') /\
  (labels s = [] -> labels s' = keys (snd d)) /\
  (labels s <> [] -> labels s' = labels s /\ incl (labels s) (keys (snd d))).
Proof.
  intros Hnc H. apply det_body_Ok in H.
  destruct H as (s1 & scores & os & H1 & H2 & _ & _ & _ & ->). simpl.
  apply discover_labels_Ok in H1. destruct H1 as [[Hne ->]|[Hz ->]]; simpl.
  - split; [assumption|]. split.
    + intro Hnil. rewrite Hnil in Hnc. simpl in Hnc. lia.
    + intros _. split; [reflexivity|]. eapply gather_scores_incl; eassumption.
  - split; [reflexivity|]. split; [reflexivity|].
    intro Hne. destruct (labels s); [congruence | simpl in Hnc; lia].
Qed.

Lemma det_loop_well_labelled (img_idx : nat) (img tail : list detection)
    (s s' : locals) :
  num_classes s = length (labels s) ->
  for_each (det_body img_idx) img s = Ok s' ->
  num_classes s' = length (labels s') /\
  (well_labelled (labels s') tail -> well_labelled (labels s) (img ++ tail)).
Proof.
  revert s. induction img as [|d img IH]; intros s Hnc H; simpl in H.
  - inversion H; subst. auto.
  - bind_inv H. rename a into s1.
    destruct (det_body_labels _ _ _ _ Hnc Ha) as (Hnc1 & Hnil & Hheld).
    destruct (IH s1 Hnc1 H) as (Hnc' & Hwl). split; [assumption|].
    intro Ht. specialize (Hwl Ht). simpl.
    destruct (labels s) as [|l ls] eqn:E.
    + now rewrite <- Hnil.
    + destruct Hheld as [Heq Hincl]; [discriminate|]. rewrite Heq in Hwl. auto.
Qed.

Lemma img_body_well_labelled (it : nat * list detection) (tail : list detection)
    (s s' : locals) :
  num_classes s = length (labels s) ->
  img_body s it = Ok s' ->
  num_classes s' = length (labels s') /\
  (well_labelled (labels s') tail -> well_labelled (labels s) (snd it ++ tail)).
Proof.
  intros Hnc H. unfold img_body in H. simpl in H.
  bind_inv H. rename a into s1. bind_inv H. inversion H; subst s'. simpl.
  exact (det_loop_well_labelled _ _ tail
           (mkLocals (labels s) (num_classes s) (dets_mat_list s)
                     (empty2 4) (empty2 (num_classes s)) [])
           _ Hnc Ha).
Qed.

Lemma img_loop_well_labelled (its : list (nat * list detection)) (s s' : locals) :
  num_classes s = length (labels s) ->
  for_each img_body its s = Ok s' ->
  well_labelled (labels s) (concat (map snd its)).
Proof.
  revert s. induction its as [|it its IH]; intros s Hnc H; simpl in H.
  - exact I.
  - bind_inv H. rename a into s1.
    destruct (img_body_well_labelled it (concat (map snd its)) _ _ Hnc Ha)
      as (Hnc1 & Hwl).
    simpl. apply Hwl. eapply IH; eassumption.
Qed.

Lemma map_snd_enumerate {X : Type} (xs : list X) :
  map snd (enumerate xs) = xs.
Proof.
  unfold enumerate. generalize 0 as k.
  induction xs as [|x xs IH]; intro k; simpl; [reflexivity | now rewrite IH].
Qed.

Lemma build_mats_well_labelled (dets : list (list detection)) (s : locals) :
  build_mats dets = Ok s -> well_labelled [] (concat dets).
Proof.
  intro H. unfold build_mats in H.
  apply img_loop_well_labelled in H; [|reflexivity].
  now rewrite map_snd_enumerate in H.
Qed.

Lemma well_labelled_has (pre post : list detection) (d : detection)
    (cur : list label) (l : label) :
  well_labelled cur (pre ++ d :: post) ->
  In l (labels_ahead cur pre) -> In l (keys (snd d)).
Proof.
  revert cur. induction pre as [|p pre IH]; intros cur Hwl Hin; simpl in *.
  - destruct cur; [destruct Hin|]. destruct Hwl as [Hincl _]. now apply Hincl.
  - destruct cur as [|c cur].
    + apply (IH _ Hwl). unfold labels_ahead. simpl in Hin.
      now destruct (keys (snd p)).
    + destruct Hwl as [_ Hwl]. exact (IH _ Hwl Hin).
Qed.

(** The exceptions of the loop: a label that is looked up and absent, or
    arrays whose dimensions do not match. *)
Lemma getitem_Raise (sd : score_map) (l : label) (e : exn) :
  getitem sd l = Raise e -> e = KeyError l.
Proof.
  induction sd as [|[k w] sd IH]; simpl.
  - intro H. now inversion H.
  - destruct (String.eqb k l); [discriminate | exact IH].
Qed.

Lemma gather_scores_Raise (lbls : list label) (sd : score_map) (e : exn) :
  gather_scores lbls sd = Raise e -> exists k, In k lbls /\ e = KeyError k.
Proof.
  induction lbls as [|l lbls IH]; simpl; [discriminate|].
  destruct (getitem sd l) as [v|e'] eqn:E; cbn [bind].
  - destruct (gather_scores lbls sd) as [vs|e'']; cbn [bind]; [discriminate|].
    intro H. inversion H; subst e''.
    destruct (IH eq_refl) as (k & Hk & ->). eauto.
  - intro H. inversion H; subst e'. apply getitem_Raise in E. eauto.
Qed.

Lemma det_body_width (img_idx : nat) (s s' : locals) (d : detection) :
  ncols (img_scores s) = num_classes s ->
  det_body img_idx s d = Ok s' ->
  ncols (img_scores s') = num_classes s'.
Proof.
  intros Hw H. apply det_body_Ok in H.
  destruct H as (s1 & scores & os & H1 & _ & _ & _ & _ & ->). simpl.
  apply discover_labels_Ok in H1.
  destruct H1 as [[_ ->] | [_ ->]]; [assumption | reflexivity].
Qed.

Lemma det_body_Raise (img_idx : nat) (s : locals) (d : detection) (e : exn) :
  ncols (img_scores s) = num_classes s ->
  det_body img_idx s d = Raise e ->
  lookup_or_shape_error e.
Proof.
  intros Hw. unfold det_body.
  assert (H1 : exists s1, discover_labels img_idx (snd d) s = Ok s1).
  { unfold discover_labels. destruct (num_classes s =? 0) eqn:E; [|eauto].
    apply Nat.eqb_eq in E. unfold set_shape0.
    rewrite Hw, E, Nat.mul_0_r. cbn [Nat.eqb bind]. eauto. }
  destruct H1 as [s1 ->]. cbn [bind].
  destruct (gather_scores (labels s1) (snd d)) as [scores|e'] eqn:Hg; cbn [bind].
  - destruct (single_class_score_total 1%Q scores) as (os & -> & _). cbn [bind].
    unfold vstack_row.
    repeat match goal with
           | |- context [if ?c then _ else _] => destruct c; cbn [bind]
           end;
      try discriminate; intro H; inversion H; now left.
  - intro H. inversion H; subst e'. right.
    apply gather_scores_Raise in Hg. destruct Hg as (k & _ & ->). eauto.
Qed.

Lemma det_loop_Raise (img_idx : nat) (img : list detection) (s : locals)
    (e : exn) :
  ncols (img_scores s) = num_classes s ->
  for_each (det_body img_idx) img s = Raise e ->
  lookup_or_shape_error e.
Proof.
  revert s. induction img as [|d img IH]; intros s Hw; simpl; [discriminate|].
  destruct (det_body img_idx s d) as [s1|e'] eqn:E; cbn [bind].
  - apply IH. eapply det_body_width; eassumption.
  - intro H. inversion H; subst e'. eapply det_body_Raise; eassumption.
Qed.

Lemma img_body_Raise (s : locals) (it : nat * list detection) (e : exn) :
  img_body s it = Raise e -> lookup_or_shape_error e.
Proof.
  unfold img_body. cbn [set_shape0 nrows data length Nat.mul Nat.eqb bind].
  destruct (for_each (det_body (fst it)) (snd it) _) as [s1|e'] eqn:E; cbn [bind].
  - unfold format_detection.
    match goal with
    | |- context [if ?c then _ else _] => destruct c; cbn [bind]
    end; [discriminate|].
    intro H. inversion H. now left.
  - intro H. inversion H; subst e'.
    eapply det_loop_Raise; [|exact E]. reflexivity.
Qed.

Lemma img_loop_Raise (its : list (nat * list detection)) (s : locals) (e : exn) :
  for_each img_body its s = Raise e -> lookup_or_shape_error e.
Proof.
  revert s. induction its as [|it its IH]; intro s; simpl; [discriminate|].
  destruct (img_body s it) as [s1|e'] eqn:E; cbn [bind]; [apply IH|].
  intro H. inversion H; subst e'. eapply img_body_Raise; eassumption.
Qed.

(** C1 as stated fails: on [batch_missing_label] the label list is
    ["cat"; "dog"], the second detection has no score for ["dog"], and the
    function raises [KeyError] instead of reading the score as 0. *)
Lemma missing_label_surfaces :
  first_nonempty_keys (concat batch_missing_label) = ["cat"; "dog"] /\
  _dets_to_formatted_mat batch_missing_label = Raise (KeyError "dog").
Proof.
  split; reflexivity.
Qed.

(** C1, amended.  When a detection lacks a label of the label list that
    the function holds when it reaches that detection, the function fails:
    it raises and returns no tensor; no score is substituted.  What it
    raises is the [KeyError] of a label lookup, or the [ValueError] of
    arrays whose dimensions do not match when that comes first. *)
Theorem missing_label_raises (dets : list (list detection))
    (pre post : list detection) (d : detection) (l : label) :
  concat dets = pre ++ d :: post ->
  In l (first_nonempty_keys pre) ->
  ~ In l (keys (snd d)) ->
  exists e, _dets_to_formatted_mat dets = Raise e /\ lookup_or_shape_error e.
Proof.
  intros Hsplit Hin Hmiss.
  destruct (build_mats dets) as [s|e] eqn:E.
  - exfalso. apply Hmiss.
    apply build_mats_well_labelled in E. rewrite Hsplit in E.
    exact (well_labelled_has _ _ _ _ _ E Hin).
  - exists e. unfold _dets_to_formatted_mat. rewrite E. split; [reflexivity|].
    eapply img_loop_Raise. exact E.
Qed.

Lemma missing_label_raises_witness :
  concat batch_missing_label =
    [(box_a, [("cat", 9 # 10); ("dog", 1 # 10)]%Q)]
      ++ (box_b, [("cat", 1 # 2)%Q]) :: [] /\
  In "dog" (first_nonempty_keys [(box_a, [("cat", 9 # 10); ("dog", 1 # 10)]%Q)]) /\
  ~ In "dog" (keys (snd (box_b, [("cat", 1 # 2)%Q]))) /\
  exists e, _dets_to_formatted_mat batch_missing_label = Raise e /\
            lookup_or_shape_error e.
Proof.
  assert (Hmiss : ~ In "dog" (keys (snd (box_b, [("cat", 1 # 2)%Q])))).
  { simpl. intros [H|[]]. discriminate H. }
  split; [reflexivity|]. split; [simpl; auto|]. split; [exact Hmiss|].
  apply (missing_label_raises batch_missing_label
           [(box_a, [("cat", 9 # 10); ("dog", 1 # 10)]%Q)] []
           (box_b, [("cat", 1 # 2)%Q]) "dog");
    [reflexivity | simpl; auto | exact Hmiss].
Defined.

(** With labels held, a detection that lacks one of them stops the loop
    body with [KeyError]. *)
Lemma det_body_missing_label (img_idx : nat) (s : locals) (d : detection)
    (l : label) :
  num_classes s <> 0 -> In l (labels s) -> ~ In l (keys (snd d)) ->
  exists k, In k (labels s) /\ ~ In k (keys (snd d)) /\
            det_body img_idx s d = Raise (KeyError k).
Proof.
  intros Hnc Hin Hmiss.
  destruct (gather_scores_missing _ _ _ Hin Hmiss) as (k & Hk & Hn & Hg).
  exists k. split; [assumption|]. split; [assumption|].
  unfold det_body, discover_labels.
  apply Nat.eqb_neq in Hnc. rewrite Hnc. cbn [bind]. now rewrite Hg.
Qed.

(** ** Labels outside the label list *)

Lemma known_keys (sd : score_map) : filter (known (keys sd)) sd = sd.
Proof.
  assert (H : forall lbls, incl (keys sd) lbls -> filter (known lbls) sd = sd).
  { induction sd as [|[k v] sd IH]; intros lbls Hincl; simpl; [reflexivity|].
    assert (Hk : known lbls (k, v) = true).
    { unfold known. apply existsb_exists. exists k. split.
      - apply Hincl. simpl. auto.
      - apply String.eqb_refl. }
    rewrite Hk, IH; [reflexivity|].
    intros x Hx. apply Hincl. simpl. auto. }
  apply H. apply incl_refl.
Qed.

Lemma getitem_known (lbls : list label) (sd : score_map) (l : label) :
  In l lbls -> getitem (filter (known lbls) sd) l = getitem sd l.
Proof.
  intro Hin. induction sd as [|[k v] sd IH]; simpl; [reflexivity|].
  destruct (known lbls (k, v)) eqn:Ek; simpl.
  - now rewrite IH.
  - destruct (String.eqb k l) eqn:E; [|exact IH].
    apply String.eqb_eq in E. subst k. exfalso.
    assert (Hk : known lbls (l, v) = true).
    { unfold known. apply existsb_exists. exists l. split; [assumption|].
      apply String.eqb_refl. }
    congruence.
Qed.

Lemma gather_scores_known (lbls held : list label) (sd : score_map) :
  incl held lbls ->
  gather_scores held (filter (known lbls) sd) = gather_scores held sd.
Proof.
  induction held as [|l held IH]; intro Hincl; simpl; [reflexivity|].
  rewrite getitem_known by (apply Hincl; simpl; auto).
  rewrite IH; [reflexivity|]. intros x Hx. apply Hincl. simpl. auto.
Qed.

(** The row of a detection depends on the scores of the listed labels
    only. *)
Lemma det_row_restrict (lbls : list label) (d : detection) :
  det_row lbls (restrict_det lbls d) = det_row lbls d.
Proof.
  unfold det_row, restrict_det. simpl.
  rewrite gather_scores_known by apply incl_refl. reflexivity.
Qed.

Lemma det_body_restrict (lbls : list label) (img_idx : nat) (s : locals)
    (d : detection) (ds : list detection) :
  num_classes s = length (labels s) ->
  labels_ahead (labels s) (d :: ds) = lbls ->
  det_body img_idx s (restrict_det lbls d) = det_body img_idx s d.
Proof.
  intros Hnc Hl. destruct (labels s) as [|c cur] eqn:E.
  - (* no label held: the detection is unchanged *)
    simpl in Hl. replace (restrict_det lbls d) with d; [reflexivity|].
    destruct d as [b sd]. unfold restrict_det. simpl in *. f_equal.
    destruct sd as [|kv sd]; [reflexivity|].
    simpl in Hl. subst lbls. symmetry. exact (known_keys (kv :: sd)).
  - simpl in Hl. subst lbls.
    unfold det_body, discover_labels. simpl in Hnc.
    destruct (num_classes s) as [|n]; [discriminate|].
    cbn [Nat.eqb bind]. rewrite E. simpl snd.
    rewrite gather_scores_known by apply incl_refl. reflexivity.
Qed.

Lemma det_body_labels_ahead (img_idx : nat) (s s' : locals) (d : detection)
    (ds : list detection) :
  num_classes s = length (labels s) ->
  det_body img_idx s d = Ok s' ->
  num_classes s' = length (labels s') /\
  labels_ahead (labels s') ds = labels_ahead (labels s) (d :: ds).
Proof.
  intros Hnc H.
  destruct (det_body_labels _ _ _ _ Hnc H) as (Hnc' & Hnil & Hheld).
  split; [assumption|].
  destruct (labels s) as [|c cur].
  - rewrite Hnil by reflexivity. simpl. now destruct (keys (snd d)).
  - destruct Hheld as [-> _]; [discriminate | reflexivity].
Qed.

Lemma det_loop_restrict (lbls : list label) (img_idx : nat)
    (img tail : list detection) (s : locals) :
  num_classes s = length (labels s) ->
  labels_ahead (labels s) (img ++ tail) = lbls ->
  for_each (det_body img_idx) (map (restrict_det lbls) img) s =
    for_each (det_body img_idx) img s /\
  forall s', for_each (det_body img_idx) img s = Ok s' ->
    num_classes s' = length (labels s') /\ labels_ahead (labels s') tail = lbls.
Proof.
  revert s. induction img as [|d img IH]; intros s Hnc Hl.
  - simpl. split; [reflexivity|]. intros s' H. inversion H; subst. auto.
  - cbn [map for_each].
    rewrite (det_body_restrict lbls img_idx s d (img ++ tail)) by assumption.
    destruct (det_body img_idx s d) as [s1|e] eqn:E; cbn [bind].
    + destruct (det_body_labels_ahead _ _ _ _ (img ++ tail) Hnc E) as (Hnc1 & Hl1).
      apply IH; [assumption | rewrite Hl1; exact Hl].
    + split; [reflexivity | discriminate].
Qed.

Lemma img_body_restrict (lbls : list label) (img_idx : nat)
    (img tail : list detection) (s : locals) :
  num_classes s = length (labels s) ->
  labels_ahead (labels s) (img ++ tail) = lbls ->
  img_body s (img_idx, map (restrict_det lbls) img) = img_body s (img_idx, img) /\
  forall s', img_body s (img_idx, img) = Ok s' ->
    num_classes s' = length (labels s') /\ labels_ahead (labels s') tail = lbls.
Proof.
  intros Hnc Hl. unfold img_body. cbn [fst snd set_shape0 nrows data length
    Nat.mul Nat.eqb bind].
  set (s0 := mkLocals (labels s) (num_classes s) (dets_mat_list s)
               (empty2 4) (empty2 (num_classes s)) []).
  destruct (det_loop_restrict lbls img_idx img tail s0 Hnc Hl) as (Heq & Hafter).
  rewrite Heq. split; [reflexivity|].
  intros s' H. bind_inv H. rename a into s1. bind_inv H.
  inversion H; subst s'. simpl. exact (Hafter s1 Ha).
Qed.

Lemma img_loop_restrict (lbls : list label) (imgs : list (list detection))
    (k : nat) (s : locals) :
  num_classes s = length (labels s) ->
  labels_ahead (labels s) (concat imgs) = lbls ->
  for_each img_body
    (combine (seq k (length imgs)) (map (map (restrict_det lbls)) imgs)) s =
  for_each img_body (combine (seq k (length imgs)) imgs) s.
Proof.
  revert k s. induction imgs as [|img imgs IH]; intros k s Hnc Hl;
    [reflexivity|].
  cbn [length seq map combine for_each].
  destruct (img_body_restrict lbls k img (concat imgs) s Hnc Hl) as (Heq & Hafter).
  rewrite Heq.
  destruct (img_body s (k, img)) as [s1|e]; cbn [bind]; [|reflexivity].
  destruct (Hafter s1 eq_refl) as (Hnc1 & Hl1). now apply IH.
Qed.

(** C10.  The entries of the score maps whose label is not in the label
    list count for nothing: with all of them removed from every detection
    the function does exactly what it does with them, returning the same
    tensor or raising the same exception. *)
Theorem extra_labels_ignored (dets : list (list detection)) :
  _dets_to_formatted_mat
    (map (map (restrict_det (first_nonempty_keys (concat dets)))) dets) =
  _dets_to_formatted_mat dets.
Proof.
  unfold _dets_to_formatted_mat, build_mats, enumerate.
  rewrite length_map, img_loop_restrict; reflexivity.
Qed.

(** ** [_generate] *)

Lemma format_detection_ncols (b sc m : ndarray2) (o : option (list Q)) :
  format_detection b sc o = Ok m -> ncols m = ncols b + 1 + ncols sc.
Proof.
  unfold format_detection.
  match goal with |- (if ?c then _ else _) = _ -> _ => destruct c end;
    [|discriminate].
  intro H. now inversion H.
Qed.

(** C7 as stated fails: with a reference detection scored for two classes
    and a detector that finds nothing in the occluded image, the generator
    receives a reference matrix of 7 columns and an occluded tensor of 5
    columns. *)
Lemma reference_columns_differ :
  _generate unit unit unit (ndarray2 * ndarray3)
            one_mask echo_generator occlude_once None None
            tt ref_bboxes ref_scores blind_detector None =
    Ok (mk2 [[0; 0; 2; 3; 1; 9 # 10; 1 # 10]%Q] 7, mk3 [[]] [1; 0; 5]).
Proof. reflexivity. Qed.

(** C7, amended.  In [_generate] the label list is computed from the
    detections of the occluded images alone.  The reference matrix is the
    formatter's output on the arrays the caller passes, with as many class
    columns as the caller's score matrix; the occluded tensor has one class
    column per label found in the occluded detections.  The generator is
    called with these two. *)
Theorem generate_columns
    (Image Masks Fill Saliency : Type)
    (perturber : Image -> result Masks)
    (generator : ndarray2 -> ndarray3 -> Masks -> result Saliency)
    (occlude_image_batch :
       Image -> Masks -> option Fill -> option Z -> result (list Image))
    (fill : option Fill) (threads : option Z)
    (ref_image : Image) (bboxes scores : ndarray2)
    (blackbox : list Image -> result (list (list detection)))
    (objectness : option (list Q)) (sal : Saliency) :
  _generate Image Masks Fill Saliency perturber generator occlude_image_batch
            fill threads ref_image bboxes scores blackbox objectness = Ok sal ->
  exists ref masks occluded pert_dets pert max_dets,
    format_detection bboxes scores objectness = Ok ref /\
    perturber ref_image = Ok masks /\
    occlude_image_batch ref_image masks fill threads = Ok occluded /\
    blackbox occluded = Ok pert_dets /\
    _dets_to_formatted_mat pert_dets = Ok pert /\
    generator ref pert masks = Ok sal /\
    ncols ref = ncols bboxes + 1 + ncols scores /\
    shape pert = [length pert_dets; max_dets;
                  4 + 1 + length (first_nonempty_keys (concat pert_dets))].
Proof.
  unfold _generate. intro H.
  bind_inv H. rename a into ref, Ha into Href.
  bind_inv H. rename a into masks, Ha into Hmasks.
  bind_inv H. rename a into occluded, Ha into Hocc.
  bind_inv H. rename a into pert_dets, Ha into Hdets.
  bind_inv H. rename a into pert, Ha into Hpert.
  destruct (dets_to_formatted_mat_Ok _ _ Hpert)
    as (s & _ & (Hnc & Hl & _) & _ & Ht).
  exists ref, masks, occluded, pert_dets, pert,
    (list_max (map nrows (dets_mat_list s))).
  repeat (split; [assumption|]).
  split; [eapply format_detection_ncols; eassumption|].
  cbv zeta in Ht. rewrite Ht. cbn [shape]. now rewrite Hnc, Hl.
Qed.

Lemma generate_columns_witness :
  _generate unit unit unit (ndarray2 * ndarray3)
            one_mask echo_generator occlude_once None None
            tt ref_bboxes ref_scores blind_detector None =
    Ok (mk2 [[0; 0; 2; 3; 1; 9 # 10; 1 # 10]%Q] 7, mk3 [[]] [1; 0; 5]) /\
  exists ref masks occluded pert_dets pert max_dets,
    format_detection ref_bboxes ref_scores None = Ok ref /\
    one_mask tt = Ok masks /\
    occlude_once tt masks None None = Ok occluded /\
    blind_detector occluded = Ok pert_dets /\
    _dets_to_formatted_mat pert_dets = Ok pert /\
    echo_generator ref pert masks =
      Ok (mk2 [[0; 0; 2; 3; 1; 9 # 10; 1 # 10]%Q] 7, mk3 [[]] [1; 0; 5]) /\
    ncols ref = ncols ref_bboxes + 1 + ncols ref_scores /\
    shape pert = [length pert_dets; max_dets;
                  4 + 1 + length (first_nonempty_keys (concat pert_dets))].
Proof.
  split; [reflexivity|].
  apply (generate_columns unit unit unit (ndarray2 * ndarray3)
           one_mask echo_generator occlude_once None None
           tt ref_bboxes ref_scores blind_detector None).
  reflexivity.
Defined.

(** ** Row counts *)

Lemma reset_previous_rows (k nc : nat) (mats : list ndarray2) :
  length mats = k ->
  length (reset_previous k nc mats) = k /\
  list_max (map nrows (reset_previous k nc mats)) = 0.
Proof.
  intro Hlen. unfold reset_previous.
  rewrite skipn_all2 by lia. rewrite app_nil_r, length_map, length_seq.
  split; [reflexivity|]. rewrite map_map. cbn [nrows empty2 data length].
  induction (seq 0 k) as [|x l IH]; simpl; auto.
Qed.

Lemma det_body_cnt (done : list (list detection)) (seen : list detection)
    (s s' : locals) (d : detection) :
  det_cnt done seen s ->
  det_body (length done) s d = Ok s' ->
  det_cnt done (seen ++ [d]) s'.
Proof.
  intros (Hlen & Hb & Hsmall & Hmax) H.
  apply det_body_Ok in H.
  destruct H as (s1 & scores & os & H1 & _ & _ & _ & _ & ->).
  apply discover_labels_Ok in H1.
  destruct H1 as [[Hne ->] | [Hz ->]]; unfold det_cnt, nrows in *; simpl;
    rewrite !length_app; simpl.
  - split; [assumption|]. split; [lia|]. split; [intro; lia|].
    destruct Hmax as [Hmax | (Hmax & Hs & Hrows)]; [now left|].
    right. repeat split; try assumption. lia.
  - destruct (Hsmall Hz) as [Hs _].
    destruct (reset_previous_rows (length done) (length (keys (snd d)))
                (dets_mat_list s) Hlen) as [Hl' Hm'].
    split; [assumption|]. split; [lia|]. split; [intro; split; [assumption | lia]|].
    right. unfold nrows in Hm'. repeat split; try assumption. lia.
Qed.

Lemma det_loop_cnt (done : list (list detection)) (rest seen : list detection)
    (s s' : locals) :
  det_cnt done seen s ->
  for_each (det_body (length done)) rest s = Ok s' ->
  det_cnt done (seen ++ rest) s'.
Proof.
  revert seen s. induction rest as [|d rest IH]; intros seen s Hinv H; simpl in H.
  - inversion H; subst. now rewrite app_nil_r.
  - bind_inv H.
    replace (seen ++ d :: rest) with ((seen ++ [d]) ++ rest)
      by (now rewrite <- app_assoc).
    eapply IH; [|exact H]. eapply det_body_cnt; eassumption.
Qed.

Lemma small_list_max (imgs : list (list detection)) :
  small imgs -> list_max (map (@length detection) imgs) <= 1.
Proof.
  intro H. apply list_max_le. apply Forall_map. exact H.
Qed.

Lemma img_body_cnt (done : list (list detection)) (img : list detection)
    (s s' : locals) :
  img_cnt done s ->
  img_body s (length done, img) = Ok s' ->
  img_cnt (done ++ [img]) s'.
Proof.
  intros (Hlen & Hsmall & Hmax) H. unfold img_body in H. simpl in H.
  bind_inv H. rename a into s1, Ha into Hloop.
  bind_inv H. rename a into m, Ha into Hfmt. inversion H; subst s'; clear H.
  apply (det_loop_cnt done img []) in Hloop.
  - destruct Hloop as (Hlen1 & Hb1 & Hsmall1 & Hmax1).
    apply format_detection_Ok in Hfmt.
    destruct Hfmt as (Ho & Hsr & _ & Hdata). simpl in Hb1.
    assert (Hm : nrows m = length img).
    { unfold nrows at 1. rewrite Hdata, length_map, !length_combine.
      unfold nrows in *. lia. }
    unfold img_cnt. simpl. rewrite !length_app, !map_app, !list_max_app.
    simpl. rewrite Hm. split; [lia|]. split.
    + intro Hz. destruct (Hsmall1 Hz) as [Hs Hrows].
      apply Forall_app. split; [assumption|]. constructor; [lia | constructor].
    + destruct Hmax1 as [-> | (-> & Hs & Hrows)]; [reflexivity|].
      pose proof (small_list_max _ Hs). lia.
  - unfold det_cnt, nrows. simpl.
    split; [assumption|]. split; [reflexivity|].
    split; [intro Hz; split; [auto | lia]|]. now left.
Qed.

Lemma img_loop_cnt (rest done : list (list detection)) (s s' : locals) :
  img_cnt done s ->
  for_each img_body (combine (seq (length done) (length rest)) rest) s = Ok s' ->
  img_cnt (done ++ rest) s'.
Proof.
  revert done s. induction rest as [|img rest IH]; intros done s Hinv H; simpl in H.
  - inversion H; subst. now rewrite app_nil_r.
  - bind_inv H.
    replace (done ++ img :: rest) with ((done ++ [img]) ++ rest)
      by (now rewrite <- app_assoc).
    apply (IH _ a); [eapply img_body_cnt; eassumption|].
    rewrite length_app. simpl. now rewrite Nat.add_1_r.
Qed.

Lemma build_mats_cnt (dets : list (list detection)) (s : locals) :
  build_mats dets = Ok s -> img_cnt dets s.
Proof.
  intro H. apply (img_loop_cnt dets [] init_locals); [|exact H].
  unfold img_cnt, small. simpl. auto.
Qed.

(** The tensor of a run that returns: one slice per image, each with as
    many rows as the largest image has detections; a slice is rows of the
    image's detections (all of them, or none) followed by padding rows,
    and a padding row is four 1s, a 0, and a 1 for each class. *)
Lemma tensor_shape (dets : list (list detection)) (t : ndarray3) :
  _dets_to_formatted_mat dets = Ok t ->
  let max_dets := list_max (map (@length detection) dets) in
  exists lbls,
    lbls = first_nonempty_keys (concat dets) /\
    shape t = [length dets; max_dets; 4 + 1 + length lbls] /\
    Forall2 (fun img slice =>
               length slice = max_dets /\
               exists rows,
                 (rows_of lbls img rows \/ rows = []) /\
                 slice = rows ++
                   repeat ([1; 1; 1; 1; 0]%Q ++ repeat 1%Q (length lbls))
                          (max_dets - length rows))
            dets (slices t).
Proof.
  intros H max_dets. apply dets_to_formatted_mat_Ok in H.
  destruct H as (s & Hb & (Hnc & Hl & Hm) & _ & ->).
  destruct (build_mats_cnt _ _ Hb) as (_ & _ & Hmax).
  exists (labels s). split; [assumption|]. cbn [shape slices].
  rewrite Hmax, Hnc. fold max_dets. split; [reflexivity|].
  assert (Hle : Forall (fun m => nrows m <= max_dets) (dets_mat_list s)).
  { apply Forall_forall. intros m Hin. subst max_dets. rewrite <- Hmax.
    assert (Hall : Forall (fun k => k <= list_max (map nrows (dets_mat_list s)))
                     (map nrows (dets_mat_list s))) by now apply list_max_le.
    rewrite Forall_forall in Hall. apply Hall. now apply in_map. }
  clearbody max_dets. clear Hb Hl Hmax.
  induction Hm as [|img m imgs ms [_ Hrows] _ IH]; cbn [map]; constructor.
  - inversion Hle; subst. split.
    + rewrite length_app, repeat_length. unfold nrows in *. lia.
    + exists (data m). split; [assumption|]. now rewrite <- pad_row_eq.
  - apply IH. now inversion Hle.
Qed.

(** ** The rows of the tensor *)

Lemma single_class_score_pos (obj : Q) (scores : list Q) (os : Q * list Q) :
  (0 < obj)%Q ->
  single_class_score obj scores = Ok os ->
  (0 < fst os)%Q /\ length (snd os) = length scores.
Proof.
  intros Hobj H.
  destruct (Nat.eq_dec (length (filter Qpos scores)) 1) as [Hone|Hother].
  - apply count_positive_one in Hone. destruct Hone as (i & c & Hic).
    apply exactly_one_positive_split in Hic.
    destruct Hic as (pre & post & -> & _ & Hc & Hpre & Hpost).
    rewrite single_class_score_one in H by assumption.
    inversion H; subst os. simpl. split; [assumption|].
    now rewrite !length_app.
  - rewrite single_class_score_other in H by assumption.
    inversion H; subst os. auto.
Qed.

Lemma mats_wf_reset (img_idx nc : nat) (mats : list ndarray2) :
  length mats = img_idx -> mats_wf nc (reset_previous img_idx nc mats).
Proof.
  intro Hlen. unfold reset_previous, mats_wf.
  rewrite skipn_all2 by lia. rewrite app_nil_r.
  apply Forall_forall. intros m Hin. apply in_map_iff in Hin.
  destruct Hin as (k & <- & _). constructor.
Qed.

Lemma det_body_wf (img_idx : nat) (s s' : locals) (d : detection) :
  arrays_wf img_idx s ->
  det_body img_idx s d = Ok s' ->
  arrays_wf img_idx s'.
Proof.
  intros (Hlen & Hbc & Hsc & Hb & Ho & Hs & Hm) H.
  apply det_body_Ok in H.
  destruct H as (s1 & scores & os & H1 & _ & H3 & Hbox & Hrow & ->).
  assert (Hpos : (0 < 1)%Q) by reflexivity.
  destruct (single_class_score_pos _ _ _ Hpos H3) as [Hobj _].
  apply discover_labels_Ok in H1.
  destruct H1 as [[_ ->] | [_ ->]]; unfold arrays_wf; simpl in *.
  - repeat split; try assumption.
    + apply Forall_app. split; [assumption|]. constructor; [lia | constructor].
    + apply Forall_app. split; [assumption|]. constructor; [assumption | constructor].
    + apply Forall_app. split; [assumption|]. constructor; [lia | constructor].
  - destruct (reset_previous_rows img_idx (length (keys (snd d)))
                (dets_mat_list s) Hlen) as [Hl' _].
    repeat split; try assumption.
    + apply Forall_app. split; [assumption|]. constructor; [lia | constructor].
    + apply Forall_app. split; [assumption|]. constructor; [assumption | constructor].
    + constructor; [lia | constructor].
    + now apply mats_wf_reset.
Qed.

Lemma det_loop_wf (img_idx : nat) (img : list detection) (s s' : locals) :
  arrays_wf img_idx s ->
  for_each (det_body img_idx) img s = Ok s' ->
  arrays_wf img_idx s'.
Proof.
  revert s. induction img as [|d img IH]; intros s Hwf H; simpl in H.
  - now inversion H; subst.
  - bind_inv H. eapply IH; [|exact H]. eapply det_body_wf; eassumption.
Qed.

Lemma formatted_rows_wf (nc : nat) (B S : list (list Q)) (O : list Q) :
  Forall (fun b => length b = 4) B ->
  Forall (fun o => (0 < o)%Q) O ->
  Forall (fun sc => length sc = nc) S ->
  Forall (row_wf nc)
    (map (fun r => fst (fst r) ++ [snd (fst r)] ++ snd r)
         (combine (combine B O) S)).
Proof.
  intros HB HO HS. rewrite Forall_forall in HB, HO, HS.
  apply Forall_forall. intros r Hin. apply in_map_iff in Hin.
  destruct Hin as ([[b o] sc] & <- & Hin). simpl.
  pose proof (in_combine_l _ _ _ _ Hin) as Hbo.
  pose proof (in_combine_r _ _ _ _ Hin) as Hsc.
  pose proof (in_combine_l _ _ _ _ Hbo) as Hb.
  pose proof (in_combine_r _ _ _ _ Hbo) as Ho.
  specialize (HB b Hb). specialize (HO o Ho). specialize (HS sc Hsc).
  split.
  - rewrite length_app. simpl. lia.
  - rewrite app_nth2 by lia. rewrite HB. exact HO.
Qed.

Lemma img_body_wf (img_idx : nat) (img : list detection) (s s' : locals) :
  length (dets_mat_list s) = img_idx ->
  mats_wf (num_classes s) (dets_mat_list s) ->
  img_body s (img_idx, img) = Ok s' ->
  length (dets_mat_list s') = S img_idx /\
  mats_wf (num_classes s') (dets_mat_list s').
Proof.
  intros Hlen Hm H. unfold img_body in H. simpl in H.
  bind_inv H. rename a into s1, Ha into Hloop.
  bind_inv H. rename a into m, Ha into Hfmt. inversion H; subst s'; clear H.
  apply det_loop_wf in Hloop.
  - destruct Hloop as (Hlen1 & _ & _ & Hb & Ho & Hs & Hm1).
    apply format_detection_Ok in Hfmt. destruct Hfmt as (_ & _ & _ & Hdata).
    simpl. rewrite length_app. simpl. split; [lia|].
    apply Forall_app. split; [assumption|]. constructor; [|constructor].
    rewrite Hdata. now apply formatted_rows_wf.
  - unfold arrays_wf. simpl. repeat split; try assumption; constructor.
Qed.

Lemma img_loop_wf (rest : list (list detection)) (k : nat) (s s' : locals) :
  length (dets_mat_list s) = k ->
  mats_wf (num_classes s) (dets_mat_list s) ->
  for_each img_body (combine (seq k (length rest)) rest) s = Ok s' ->
  mats_wf (num_classes s') (dets_mat_list s').
Proof.
  revert k s. induction rest as [|img rest IH]; intros k s Hlen Hm H; simpl in H.
  - now inversion H; subst.
  - bind_inv H. destruct (img_body_wf _ _ _ _ Hlen Hm Ha) as [Hlen1 Hm1].
    exact (IH _ _ Hlen1 Hm1 H).
Qed.

Lemma build_mats_wf (dets : list (list detection)) (s : locals) :
  build_mats dets = Ok s -> mats_wf (num_classes s) (dets_mat_list s).
Proof.
  intro H. apply (img_loop_wf dets 0 init_locals); [reflexivity | constructor | exact H].
Qed.

Lemma pad_row_objectness (nc : nat) : nth 4 (pad_row nc) 0%Q = 0%Q.
Proof. reflexivity. Qed.

(** X1.  The tensor of a run that returns is rectangular, and the
    objectness column tells padding from detections: there is one slice
    per image, every slice has as many rows as the largest image has
    detections, every row has 4 + 1 + (number of labels) entries, and a
    row is either the padding row, whose entry 4 is 0, or a row whose entry
    4 is strictly positive. *)
Theorem tensor_rectangular (dets : list (list detection)) (t : ndarray3) :
  _dets_to_formatted_mat dets = Ok t ->
  let max_dets := list_max (map (@length detection) dets) in
  let nc := length (first_nonempty_keys (concat dets)) in
  shape t = [length dets; max_dets; 4 + 1 + nc] /\
  length (slices t) = length dets /\
  Forall (fun slice =>
            length slice = max_dets /\
            Forall (fun r => length r = 4 + 1 + nc /\
                             ((r = pad_row nc /\ nth 4 r 0%Q = 0%Q) \/
                              (0 < nth 4 r 0)%Q))
                   slice)
         (slices t).
Proof.
  intros H max_dets nc. apply dets_to_formatted_mat_Ok in H.
  destruct H as (s & Hb & (Hnc & Hl & Hm) & _ & ->).
  destruct (build_mats_cnt _ _ Hb) as (Hlen & _ & Hmax).
  pose proof (build_mats_wf _ _ Hb) as Hwf.
  assert (Hnc' : num_classes s = nc) by (subst nc; now rewrite <- Hl).
  cbn [shape slices]. rewrite Hmax, Hnc', length_map, Hlen. fold max_dets.
  split; [reflexivity|]. split; [reflexivity|].
  rewrite Hnc' in Hwf.
  apply Forall_forall. intros slice Hin. apply in_map_iff in Hin.
  destruct Hin as (m & <- & Hin).
  assert (Hle : nrows m <= max_dets).
  { subst max_dets. rewrite <- Hmax.
    assert (Hall : Forall (fun k => k <= list_max (map nrows (dets_mat_list s)))
                     (map nrows (dets_mat_list s))) by now apply list_max_le.
    rewrite Forall_forall in Hall. apply Hall. now apply in_map. }
  split.
  - rewrite length_app, repeat_length. unfold nrows in *. lia.
  - unfold mats_wf in Hwf. rewrite Forall_forall in Hwf.
    specialize (Hwf m Hin). rewrite Forall_forall in Hwf.
    apply Forall_forall. intros r Hr. apply in_app_or in Hr.
    destruct Hr as [Hr|Hr].
    + destruct (Hwf r Hr) as [Hlr Hpos]. auto.
    + apply repeat_spec in Hr. subst r. split; [apply length_pad_row|].
      left. split; [reflexivity | apply pad_row_objectness].
Qed.

Lemma tensor_rectangular_witness :
  _dets_to_formatted_mat batch_late_labels =
    Ok (mk3 [[[1; 1; 1; 1; 0; 1]]; [[1; 1; 4; 5; 1 # 2; 1]]]%Q [2; 1; 6]) /\
  [2; 1; 6] = [length batch_late_labels;
               list_max (map (@length detection) batch_late_labels);
               4 + 1 + length (first_nonempty_keys (concat batch_late_labels))] /\
  length [[[1; 1; 1; 1; 0; 1]]; [[1; 1; 4; 5; 1 # 2; 1]]]%Q =
    length batch_late_labels /\
  Forall (fun slice =>
            length slice = list_max (map (@length detection) batch_late_labels) /\
            Forall (fun r =>
                      length r = 4 + 1 +
                        length (first_nonempty_keys (concat batch_late_labels)) /\
                      ((r = pad_row
                              (length (first_nonempty_keys
                                         (concat batch_late_labels))) /\
                        nth 4 r 0%Q = 0%Q) \/
                       (0 < nth 4 r 0)%Q))
                   slice)
         [[[1; 1; 1; 1; 0; 1]]; [[1; 1; 4; 5; 1 # 2; 1]]]%Q.
Proof.
  split; [vm_compute; reflexivity|].
  apply (tensor_rectangular batch_late_labels
           (mk3 [[[1; 1; 1; 1; 0; 1]]; [[1; 1; 4; 5; 1 # 2; 1]]]%Q [2; 1; 6])).
  vm_compute. reflexivity.
Defined.

(** ** What the function raises *)

(** X2.  When the function raises, it raises the [ValueError] of [max] on a
    batch with no image, and on any other batch the [KeyError] of a label
    lookup or the [ValueError] of arrays whose dimensions do not match; the
    [max] and [index] of lines 169-171, the shape assignments and the
    padding never fail. *)
Theorem raises_only (dets : list (list detection)) (e : exn) :
  _dets_to_formatted_mat dets = Raise e ->
  (dets = [] /\ e = ValueError_max_empty) \/
  (dets <> [] /\ lookup_or_shape_error e).
Proof.
  intro H. destruct dets as [|img dets].
  - left. split; [reflexivity|]. now inversion H.
  - right. split; [discriminate|].
    destruct (build_mats (img :: dets)) as [s|e'] eqn:E.
    + destruct (dets_to_formatted_mat_returns (img :: dets) s) as [t Ht];
        [discriminate | assumption | congruence].
    + unfold _dets_to_formatted_mat in H. rewrite E in H. inversion H; subst e'.
      eapply img_loop_Raise. exact E.
Qed.

Lemma raises_only_witness :
  _dets_to_formatted_mat batch_missing_label = Raise (KeyError "dog") /\
  ((batch_missing_label = [] /\ KeyError "dog" = ValueError_max_empty) \/
   (batch_missing_label <> [] /\ lookup_or_shape_error (KeyError "dog"))).
Proof.
  split; [vm_compute; reflexivity|].
  apply (raises_only batch_missing_label (KeyError "dog")).
  vm_compute. reflexivity.
Defined.

(** ** Batches without empty score maps *)

Lemma kept_reset (done : list (list detection)) (nc : nat) (mats : list ndarray2) :
  Forall (fun img : list detection => img = []) done ->
  length mats = length done ->
  Forall2 (fun (img : list detection) m => nrows m = length img) done
          (reset_previous (length done) nc mats).
Proof.
  intros Hall Hlen. unfold reset_previous.
  rewrite skipn_all2 by lia. rewrite app_nil_r. clear Hlen.
  assert (H : forall k,
             Forall2 (fun (img : list detection) m => nrows m = length img) done
               (map (fun _ => empty2 (4 + 1 + nc)) (seq k (length done)))).
  { induction Hall as [|img done -> _ IH]; intro k; simpl; constructor.
    - reflexivity.
    - apply IH. }
  apply H.
Qed.

Lemma det_body_kept (done : list (list detection)) (seen : list detection)
    (s s' : locals) (d : detection) :
  keys (snd d) <> [] ->
  det_kept done seen s ->
  det_body (length done) s d = Ok s' ->
  det_kept done (seen ++ [d]) s'.
Proof.
  intros Hkeys (Hm & Hb & Hz) H.
  apply det_body_Ok in H.
  destruct H as (s1 & scores & os & H1 & _ & _ & _ & _ & ->).
  apply discover_labels_Ok in H1.
  destruct H1 as [[Hne ->] | [Hnc ->]]; unfold det_kept, nrows in *; simpl;
    rewrite !length_app; simpl.
  - split; [assumption|]. split; [lia|]. intro. lia.
  - destruct (Hz Hnc) as [Hall ->]. split.
    + apply kept_reset; [assumption|]. symmetry. exact (Forall2_length Hm).
    + split; [lia|]. intro H0. exfalso. apply Hkeys.
      now apply length_zero_iff_nil.
Qed.

Lemma det_loop_kept (done : list (list detection)) (rest seen : list detection)
    (s s' : locals) :
  Forall (fun d : detection => keys (snd d) <> []) rest ->
  det_kept done seen s ->
  for_each (det_body (length done)) rest s = Ok s' ->
  det_kept done (seen ++ rest) s'.
Proof.
  intro Hrest. revert seen s.
  induction Hrest as [|d rest Hd _ IH]; intros seen s Hinv H; simpl in H.
  - inversion H; subst. now rewrite app_nil_r.
  - bind_inv H.
    replace (seen ++ d :: rest) with ((seen ++ [d]) ++ rest)
      by (now rewrite <- app_assoc).
    eapply IH; [|exact H]. eapply det_body_kept; eassumption.
Qed.

Lemma img_body_kept (done : list (list detection)) (img : list detection)
    (s s' : locals) :
  Forall (fun d : detection => keys (snd d) <> []) img ->
  img_kept done s ->
  img_body s (length done, img) = Ok s' ->
  img_kept (done ++ [img]) s'.
Proof.
  intros Himg (Hm & Hz) H. unfold img_body in H. simpl in H.
  bind_inv H. rename a into s1, Ha into Hloop.
  bind_inv H. rename a into m, Ha into Hfmt. inversion H; subst s'; clear H.
  apply (det_loop_kept done img [] _ _ Himg) in Hloop.
  - destruct Hloop as (Hm1 & Hb1 & Hz1). simpl in Hb1, Hz1.
    apply format_detection_Ok in Hfmt. destruct Hfmt as (Ho & Hsr & _ & Hdata).
    unfold img_kept. simpl. split.
    + apply Forall2_app; [assumption|]. constructor; [|constructor].
      unfold nrows at 1. rewrite Hdata, length_map, !length_combine.
      unfold nrows in *. lia.
    + intro H0. destruct (Hz1 H0) as [Hall ->].
      apply Forall_app. split; [assumption | repeat constructor].
  - unfold det_kept, nrows. simpl.
    split; [assumption|]. split; [reflexivity|]. auto.
Qed.

Lemma img_loop_kept (rest done : list (list detection)) (s s' : locals) :
  labelled rest ->
  img_kept done s ->
  for_each img_body (combine (seq (length done) (length rest)) rest) s = Ok s' ->
  img_kept (done ++ rest) s'.
Proof.
  intro Hrest. revert done s.
  induction Hrest as [|img rest Himg _ IH]; intros done s Hinv H; simpl in H.
  - inversion H; subst. now rewrite app_nil_r.
  - bind_inv H.
    replace (done ++ img :: rest) with ((done ++ [img]) ++ rest)
      by (now rewrite <- app_assoc).
    apply (IH _ a); [eapply img_body_kept; eassumption|].
    rewrite length_app. simpl. now rewrite Nat.add_1_r.
Qed.

Lemma build_mats_kept (dets : list (list detection)) (s : locals) :
  labelled dets -> build_mats dets = Ok s -> img_kept dets s.
Proof.
  intros Hl H. apply (img_loop_kept dets [] init_locals); [assumption | | exact H].
  unfold img_kept. simpl. split; constructor.
Qed.

(** With no empty score map, the matrix kept for an image holds the rows
    of all its detections. *)
Lemma build_mats_rows (dets : list (list detection)) (s : locals) :
  labelled dets ->
  build_mats dets = Ok s ->
  Forall2 (fun img m => rows_of (labels s) img (data m)) dets (dets_mat_list s).
Proof.
  intros Hlab Hb.
  destruct (build_mats_inv _ _ Hb) as (_ & _ & Hm).
  destruct (build_mats_kept _ _ Hlab Hb) as [Hkept _].
  generalize dependent (labels s). intros lbls Hm. clear Hb Hlab.
  induction Hm as [|img m imgs ms [_ Hrows] _ IH];
    inversion Hkept; subst; constructor.
  - destruct Hrows as [Hr|Hnil]; [assumption|].
    unfold nrows in *. rewrite Hnil in *.
    destruct img; [constructor | discriminate].
  - now apply IH.
Qed.

Lemma padded_slices (lbls : list label) (nc max_dets : nat)
    (dets : list (list detection)) (mats : list ndarray2) :
  Forall2 (fun img m => rows_of lbls img (data m)) dets mats ->
  Forall2 (fun img slice =>
             exists rows,
               rows_of lbls img rows /\
               slice = rows ++ repeat (pad_row nc) (max_dets - length img))
          dets
          (map (fun m => data m ++ repeat (pad_row nc) (max_dets - nrows m)) mats).
Proof.
  induction 1 as [|img m imgs ms Hrows _ IH]; cbn [map]; constructor.
  - exists (data m). split; [assumption|].
    unfold nrows. now rewrite (Forall2_length Hrows).
  - exact IH.
Qed.

(** X3.  When no detection of the batch has an empty score map and the
    function returns, no detection is lost: the slice of every image is
    the rows of all its detections, in their order and in the column order
    of the label list, followed by the padding rows that bring it to the
    size of the largest image. *)
Theorem no_row_dropped (dets : list (list detection)) (t : ndarray3) :
  labelled dets ->
  _dets_to_formatted_mat dets = Ok t ->
  let lbls := first_nonempty_keys (concat dets) in
  let max_dets := list_max (map (@length detection) dets) in
  Forall2 (fun img slice =>
             exists rows,
               rows_of lbls img rows /\
               slice = rows ++ repeat (pad_row (length lbls))
                                      (max_dets - length img))
          dets (slices t).
Proof.
  intros Hlab H lbls max_dets. apply dets_to_formatted_mat_Ok in H.
  destruct H as (s & Hb & (Hnc & Hl & _) & _ & ->).
  destruct (build_mats_cnt _ _ Hb) as (_ & _ & Hmax).
  pose proof (build_mats_rows _ _ Hlab Hb) as Hrows.
  cbn [slices]. rewrite Hmax, Hnc, Hl. rewrite Hl in Hrows.
  now apply padded_slices.
Qed.

Lemma no_row_dropped_witness :
  labelled batch_cat_dog /\
  _dets_to_formatted_mat batch_cat_dog =
    Ok (mk3 [[[1; 1; 1; 1; 0; 1; 1]; [1; 1; 1; 1; 0; 1; 1]];
             [[0; 0; 2; 3; 9 # 10; 1; 0]; [1; 1; 4; 5; 1; 1 # 5; 3 # 10]];
             [[1; 1; 4; 5; 1; 0; 0]; [1; 1; 1; 1; 0; 1; 1]]]%Q [3; 2; 7]) /\
  Forall2 (fun img slice =>
             exists rows,
               rows_of (first_nonempty_keys (concat batch_cat_dog)) img rows /\
               slice = rows ++
                 repeat (pad_row (length (first_nonempty_keys
                                            (concat batch_cat_dog))))
                        (list_max (map (@length detection) batch_cat_dog)
                         - length img))
          batch_cat_dog
          [[[1; 1; 1; 1; 0; 1; 1]; [1; 1; 1; 1; 0; 1; 1]];
           [[0; 0; 2; 3; 9 # 10; 1; 0]; [1; 1; 4; 5; 1; 1 # 5; 3 # 10]];
           [[1; 1; 4; 5; 1; 0; 0]; [1; 1; 1; 1; 0; 1; 1]]]%Q.
Proof.
  assert (Hlab : labelled batch_cat_dog).
  { unfold labelled, batch_cat_dog. repeat constructor; simpl; discriminate. }
  split; [exact Hlab|]. split; [vm_compute; reflexivity|].
  apply (no_row_dropped batch_cat_dog
           (mk3 [[[1; 1; 1; 1; 0; 1; 1]; [1; 1; 1; 1; 0; 1; 1]];
                 [[0; 0; 2; 3; 9 # 10; 1; 0]; [1; 1; 4; 5; 1; 1 # 5; 3 # 10]];
                 [[1; 1; 4; 5; 1; 0; 0]; [1; 1; 1; 1; 0; 1; 1]]]%Q [3; 2; 7])).
  - exact Hlab.
  - vm_compute. reflexivity.
Defined.

(** ** Batches on which the function returns *)

Lemma getitem_present (sd : score_map) (l : label) :
  In l (keys sd) -> exists v, getitem sd l = Ok v.
Proof.
  induction sd as [|[k w] sd IH]; simpl; [tauto|].
  intro H. destruct (String.eqb k l) eqn:E; [eauto|].
  apply String.eqb_neq in E. destruct H as [H|H]; [congruence | auto].
Qed.

Lemma gather_scores_present (lbls : list label) (sd : score_map) :
  incl lbls (keys sd) ->
  exists scores, gather_scores lbls sd = Ok scores /\ length scores = length lbls.
Proof.
  induction lbls as [|l lbls IH]; intro Hincl; simpl.
  - exists []. auto.
  - destruct (getitem_present sd l) as [v ->]; [apply Hincl; simpl; auto|].
    destruct IH as (vs & -> & Hlen); [intros x Hx; apply Hincl; simpl; auto|].
    exists (v :: vs). simpl. auto.
Qed.

Lemma det_body_returns (lbls : list label) (img_idx : nat) (s : locals)
    (d : detection) (rest : list detection) :
  arrays_sync s ->
  labels_ahead (labels s) (d :: rest) = lbls ->
  det_wf lbls d ->
  exists s', det_body img_idx s d = Ok s' /\ arrays_sync s' /\
             labels_ahead (labels s') rest = lbls.
Proof.
  intros (Hnc & Hbc & Hsc & Hbo & Hbs & Hz) Hl (Hbox & Hkeys & Hincl).
  assert (H1 : exists s1,
             discover_labels img_idx (snd d) s = Ok s1 /\
             incl (labels s1) (keys (snd d)) /\
             num_classes s1 = length (labels s1) /\
             num_classes s1 <> 0 /\
             img_bboxes s1 = img_bboxes s /\
             img_objectness s1 = img_objectness s /\
             ncols (img_scores s1) = num_classes s1 /\
             nrows (img_scores s1) = nrows (img_bboxes s)).
  { unfold discover_labels. destruct (num_classes s =? 0) eqn:E.
    - apply Nat.eqb_eq in E. unfold set_shape0.
      rewrite Hsc, E, Nat.mul_0_r. cbn [Nat.eqb bind].
      eexists. split; [reflexivity|]. cbn.
      split; [apply incl_refl|]. split; [reflexivity|].
      split; [intro H0; apply Hkeys; now apply length_zero_iff_nil|].
      split; [reflexivity|]. split; [reflexivity|]. split; [reflexivity|].
      now rewrite (Hz E).
    - apply Nat.eqb_neq in E. exists s. split; [reflexivity|].
      assert (Hheld : labels s = lbls).
      { unfold labels_ahead in Hl. destruct (labels s); [simpl in Hnc; lia|].
        exact Hl. }
      rewrite Hheld. repeat split; try assumption; try congruence. }
  destruct H1 as (s1 & Hd & Hin1 & Hnc1 & Hne1 & Hb1 & Ho1 & Hsc1 & Hsr1).
  destruct (gather_scores_present _ _ Hin1) as (scores & Hg & Hlen).
  destruct (single_class_score_total 1%Q scores) as (os & Hos & Hlos).
  assert (Hbody : det_body img_idx s d =
                  Ok (mkLocals (labels s1) (num_classes s1) (dets_mat_list s1)
                        (mk2 (data (img_bboxes s1) ++
                                [min_vertex (fst d) ++ max_vertex (fst d)])
                             (ncols (img_bboxes s1)))
                        (mk2 (data (img_scores s1) ++ [snd os])
                             (ncols (img_scores s1)))
                        (img_objectness s1 ++ [fst os]))).
  { unfold det_body. rewrite Hd. cbn [bind]. rewrite Hg. cbn [bind].
    rewrite Hos. cbn [bind]. unfold vstack_row.
    rewrite Hb1, Hbc, Hbox. cbn [Nat.eqb bind].
    rewrite Hsc1, Hlos, Hlen, <- Hnc1, Nat.eqb_refl. reflexivity. }
  eexists. split; [exact Hbody|]. split.
  - unfold arrays_sync, nrows in *. cbn.
    rewrite Hb1, Ho1, !length_app. cbn.
    repeat split; try assumption; try lia.
  - destruct (det_body_labels_ahead _ _ _ _ rest Hnc Hbody) as [_ Hahead].
    now rewrite Hahead.
Qed.

Lemma det_loop_returns (lbls : list label) (img_idx : nat)
    (img tail : list detection) (s : locals) :
  arrays_sync s ->
  labels_ahead (labels s) (img ++ tail) = lbls ->
  Forall (det_wf lbls) img ->
  exists s', for_each (det_body img_idx) img s = Ok s' /\ arrays_sync s' /\
             labels_ahead (labels s') tail = lbls.
Proof.
  intros Hs Hl Himg. revert s Hs Hl.
  induction Himg as [|d img Hd _ IH]; intros s Hs Hl.
  - exists s. auto.
  - destruct (det_body_returns lbls img_idx s d (img ++ tail) Hs Hl Hd)
      as (s1 & Hbody & Hs1 & Hl1).
    destruct (IH s1 Hs1 Hl1) as (s' & Hloop & Hs' & Hl').
    exists s'. cbn [for_each]. rewrite Hbody. auto.
Qed.

Lemma img_body_returns (lbls : list label) (img_idx : nat)
    (img tail : list detection) (s : locals) :
  num_classes s = length (labels s) ->
  labels_ahead (labels s) (img ++ tail) = lbls ->
  Forall (det_wf lbls) img ->
  exists s', img_body s (img_idx, img) = Ok s' /\
             num_classes s' = length (labels s') /\
             labels_ahead (labels s') tail = lbls.
Proof.
  intros Hnc Hl Himg.
  destruct (det_loop_returns lbls img_idx img tail
              (mkLocals (labels s) (num_classes s) (dets_mat_list s)
                        (empty2 4) (empty2 (num_classes s)) []))
    as (s1 & Hloop & (Hnc1 & _ & _ & Hbo & Hbs & _) & Hl1);
    [unfold arrays_sync, nrows; cbn; auto 10 | exact Hl | exact Himg |].
  unfold img_body. cbn [fst snd set_shape0 nrows data length Nat.mul Nat.eqb bind].
  fold (empty2 4). rewrite Hloop. cbn [bind].
  unfold format_detection. rewrite <- Hbo, <- Hbs, Nat.eqb_refl. cbn [andb bind].
  eexists. split; [reflexivity|]. cbn. auto.
Qed.

Lemma img_loop_returns (lbls : list label) (imgs : list (list detection))
    (k : nat) (s : locals) :
  num_classes s = length (labels s) ->
  labels_ahead (labels s) (concat imgs) = lbls ->
  Forall (Forall (det_wf lbls)) imgs ->
  exists s', for_each img_body (combine (seq k (length imgs)) imgs) s = Ok s'.
Proof.
  intros Hnc Hl Himgs. revert k s Hnc Hl.
  induction Himgs as [|img imgs Himg _ IH]; intros k s Hnc Hl.
  - exists s. reflexivity.
  - destruct (img_body_returns lbls k img (concat imgs) s Hnc Hl Himg)
      as (s1 & Hbody & Hnc1 & Hl1).
    destruct (IH (S k) s1 Hnc1 Hl1) as (s' & Hloop).
    exists s'. cbn [length seq combine for_each]. rewrite Hbody. exact Hloop.
Qed.

Lemma batch_wf_labelled (dets : list (list detection)) :
  batch_wf dets -> labelled dets.
Proof.
  unfold batch_wf, labelled. intro H.
  eapply Forall_impl; [|exact H]. intros img Himg.
  eapply Forall_impl; [|exact Himg]. intros d (_ & Hk & _). exact Hk.
Qed.

(** X4.  On a batch with at least one image in which every detection has
    a box of two 2-D vertices and a non-empty score map with all the labels
    of the first detection, the function returns; the tensor has one slice
    per image, as many rows per slice as the largest image has detections
    and 4 + 1 + (number of labels) columns, and the slice of an image is
    the rows of all its detections followed by padding rows. *)
Theorem well_formed_batch_aligned (dets : list (list detection)) :
  dets <> [] ->
  batch_wf dets ->
  let lbls := first_nonempty_keys (concat dets) in
  let max_dets := list_max (map (@length detection) dets) in
  exists t,
    _dets_to_formatted_mat dets = Ok t /\
    shape t = [length dets; max_dets; 4 + 1 + length lbls] /\
    Forall2 (fun img slice =>
               exists rows,
                 rows_of lbls img rows /\
                 slice = rows ++ repeat (pad_row (length lbls))
                                        (max_dets - length img))
            dets (slices t).
Proof.
  intros Hne Hwf lbls max_dets.
  destruct (img_loop_returns lbls dets 0 init_locals) as [s Hs];
    [reflexivity | reflexivity | exact Hwf |].
  change (build_mats dets = Ok s) in Hs.
  destruct (dets_to_formatted_mat_returns dets s Hne Hs) as [t Ht].
  exists t. split; [assumption|].
  apply dets_to_formatted_mat_Ok in Ht.
  destruct Ht as (s' & Hs' & (Hnc & Hl & _) & _ & ->).
  assert (s' = s) by congruence. subst s'.
  destruct (build_mats_cnt _ _ Hs) as (_ & _ & Hmax).
  pose proof (build_mats_rows _ _ (batch_wf_labelled _ Hwf) Hs) as Hrows.
  cbn [shape slices]. rewrite Hmax, Hnc, Hl. rewrite Hl in Hrows.
  split; [reflexivity|]. now apply padded_slices.
Qed.

Lemma well_formed_batch_aligned_witness :
  batch_cat_dog <> [] /\
  batch_wf batch_cat_dog /\
  exists t,
    _dets_to_formatted_mat batch_cat_dog = Ok t /\
    shape t = [length batch_cat_dog;
               list_max (map (@length detection) batch_cat_dog);
               4 + 1 + length (first_nonempty_keys (concat batch_cat_dog))] /\
    Forall2 (fun img slice =>
               exists rows,
                 rows_of (first_nonempty_keys (concat batch_cat_dog)) img rows /\
                 slice = rows ++
                   repeat (pad_row (length (first_nonempty_keys
                                              (concat batch_cat_dog))))
                          (list_max (map (@length detection) batch_cat_dog)
                           - length img))
            batch_cat_dog (slices t).
Proof.
  assert (Hwf : batch_wf batch_cat_dog).
  { unfold batch_wf. cbn.
    repeat (first [apply Forall_nil | apply Forall_cons]);
      (split; [reflexivity | split; [discriminate | intros x Hx; cbn in *; tauto]]). }
  split; [discriminate|]. split; [exact Hwf|].
  apply (well_formed_batch_aligned batch_cat_dog); [discriminate | exact Hwf].
Defined.

(** ** The order of the entries of a score map *)

Lemma getitem_perm (sd sd' : score_map) (l : label) :
  NoDup (keys sd) -> Permutation sd sd' -> getitem sd' l = getitem sd l.
Proof.
  intros Hnd Hp. induction Hp as [|[k v] sd sd' Hp IH|[k v] [k' v'] sd|sd sd1 sd2 Hp1 IH1 Hp2 IH2].
  - reflexivity.
  - simpl in *. inversion Hnd; subst. now rewrite IH.
  - simpl in *. inversion Hnd as [|? ? Hnotin _]; subst.
    destruct (String.eqb k' l) eqn:E'; destruct (String.eqb k l) eqn:E;
      try reflexivity.
    apply String.eqb_eq in E, E'. subst. exfalso. apply Hnotin. simpl. auto.
  - rewrite IH2, IH1; [reflexivity | assumption |].
    unfold keys in *. eapply Permutation_NoDup; [|exact Hnd].
    now apply Permutation_map.
Qed.

Lemma gather_scores_perm (lbls : list label) (sd sd' : score_map) :
  NoDup (keys sd) -> Permutation sd sd' ->
  gather_scores lbls sd' = gather_scores lbls sd.
Proof.
  intros Hnd Hp. induction lbls as [|l lbls IH]; simpl; [reflexivity|].
  now rewrite (getitem_perm sd sd' l Hnd Hp), IH.
Qed.

Lemma same_scores_keys (d d' : detection) (tl tl' : list detection) :
  same_scores d d' ->
  first_nonempty_keys (d' :: tl') = first_nonempty_keys (d :: tl) ->
  keys (snd d') = keys (snd d) /\
  (keys (snd d) = [] -> first_nonempty_keys tl' = first_nonempty_keys tl).
Proof.
  intros (_ & _ & Hp) Hk. simpl in Hk. unfold keys in *.
  pose proof (Permutation_length Hp) as Hlen.
  destruct (snd d) as [|kv sd]; destruct (snd d') as [|kv' sd'];
    simpl in *; try discriminate; auto.
  split; [assumption | discriminate].
Qed.

Lemma det_body_perm (img_idx : nat) (s : locals) (d d' : detection) :
  same_scores d d' ->
  (num_classes s = 0 -> keys (snd d') = keys (snd d)) ->
  det_body img_idx s d' = det_body img_idx s d.
Proof.
  intros (Hbox & Hnd & Hp) Hk. unfold det_body, discover_labels.
  rewrite Hbox. destruct (num_classes s =? 0) eqn:E.
  - apply Nat.eqb_eq in E. rewrite (Hk E).
    destruct (set_shape0 (img_scores s) (length (keys (snd d)))); cbn [bind labels];
      [|reflexivity].
    now rewrite (gather_scores_perm _ _ _ Hnd Hp).
  - cbn [bind]. now rewrite (gather_scores_perm _ _ _ Hnd Hp).
Qed.

Lemma det_loop_perm (img_idx : nat) (img img' tl tl' : list detection)
    (s : locals) :
  Forall2 same_scores img img' ->
  num_classes s = length (labels s) ->
  agree (labels s) (img ++ tl) (img' ++ tl') ->
  for_each (det_body img_idx) img' s = for_each (det_body img_idx) img s /\
  forall s', for_each (det_body img_idx) img s = Ok s' ->
    num_classes s' = length (labels s') /\ agree (labels s') tl tl'.
Proof.
  intro Himg. revert s.
  induction Himg as [|d d' img img' Hd _ IH]; intros s Hnc Hag.
  - split; [reflexivity|]. intros s' H. inversion H; subst. auto.
  - cbn [for_each].
    assert (Hk : num_classes s = 0 ->
                 keys (snd d') = keys (snd d) /\
                 (keys (snd d) = [] ->
                  first_nonempty_keys (img' ++ tl') = first_nonempty_keys (img ++ tl))).
    { intro Hz. apply same_scores_keys; [assumption|]. apply Hag.
      destruct (labels s); [reflexivity | simpl in Hnc; lia]. }
    rewrite (det_body_perm img_idx s d d' Hd) by (intro Hz; now apply Hk).
    destruct (det_body img_idx s d) as [s1|e] eqn:E; cbn [bind];
      [|split; [reflexivity | discriminate]].
    destruct (det_body_labels _ _ _ _ Hnc E) as (Hnc1 & Hnil & Hheld).
    apply IH; [assumption|]. intro H1.
    destruct (labels s) as [|c cur] eqn:El.
    + rewrite Hnil in H1 by reflexivity.
      apply Hk; [simpl in Hnc; exact Hnc | exact H1].
    + destruct Hheld as [Heq _]; [discriminate|]. congruence.
Qed.

Lemma img_body_perm (img_idx : nat) (img img' tl tl' : list detection)
    (s : locals) :
  Forall2 same_scores img img' ->
  num_classes s = length (labels s) ->
  agree (labels s) (img ++ tl) (img' ++ tl') ->
  img_body s (img_idx, img') = img_body s (img_idx, img) /\
  forall s', img_body s (img_idx, img) = Ok s' ->
    num_classes s' = length (labels s') /\ agree (labels s') tl tl'.
Proof.
  intros Himg Hnc Hag. unfold img_body.
  cbn [fst snd set_shape0 nrows data length Nat.mul Nat.eqb bind].
  set (s0 := mkLocals (labels s) (num_classes s) (dets_mat_list s)
               (empty2 4) (empty2 (num_classes s)) []).
  destruct (det_loop_perm img_idx img img' tl tl' s0 Himg Hnc Hag) as (Heq & Hafter).
  rewrite Heq. split; [reflexivity|].
  intros s' H. bind_inv H. rename a into s1. bind_inv H.
  inversion H; subst s'. simpl. exact (Hafter s1 Ha).
Qed.

Lemma img_loop_perm (imgs imgs' : list (list detection)) (k : nat) (s : locals) :
  Forall2 (Forall2 same_scores) imgs imgs' ->
  num_classes s = length (labels s) ->
  agree (labels s) (concat imgs) (concat imgs') ->
  for_each img_body (combine (seq k (length imgs')) imgs') s =
  for_each img_body (combine (seq k (length imgs)) imgs) s.
Proof.
  intro Himgs. revert k s.
  induction Himgs as [|img img' imgs imgs' Himg _ IH]; intros k s Hnc Hag;
    [reflexivity|].
  cbn [length seq combine for_each].
  destruct (img_body_perm k img img' (concat imgs) (concat imgs') s Himg Hnc Hag)
    as (Heq & Hafter).
  rewrite Heq.
  destruct (img_body s (k, img)) as [s1|e]; cbn [bind]; [|reflexivity].
  destruct (Hafter s1 eq_refl) as (Hnc1 & Hag1). now apply IH.
Qed.

(** X5.  Only the first detection's key order counts.  Two batches whose
    detections have, position by position, the same box and the same
    scores, with the entries of a score map possibly in another order, and
    which start from the same label list, make the function do the same:
    the same tensor or the same exception. *)
Theorem score_order_irrelevant (dets dets' : list (list detection)) :
  Forall2 (Forall2 same_scores) dets dets' ->
  first_nonempty_keys (concat dets') = first_nonempty_keys (concat dets) ->
  _dets_to_formatted_mat dets' = _dets_to_formatted_mat dets.
Proof.
  intros Hsame Hk. unfold _dets_to_formatted_mat, build_mats, enumerate.
  rewrite (img_loop_perm dets dets' 0 init_locals Hsame); [reflexivity..|].
  intros _. exact Hk.
Qed.

Lemma score_order_irrelevant_witness :
  Forall2 (Forall2 same_scores) batch_cat_dog batch_dog_cat /\
  first_nonempty_keys (concat batch_dog_cat) =
    first_nonempty_keys (concat batch_cat_dog) /\
  _dets_to_formatted_mat batch_dog_cat = _dets_to_formatted_mat batch_cat_dog.
Proof.
  assert (Hnd : forall a b : string, a <> b -> NoDup [a; b]).
  { intros a b Hab. constructor; [simpl; intuition congruence|].
    constructor; [simpl; tauto | constructor]. }
  assert (Hsame : Forall2 (Forall2 same_scores) batch_cat_dog batch_dog_cat).
  { unfold batch_cat_dog, batch_dog_cat.
    repeat (first [apply Forall2_nil | apply Forall2_cons]);
      (split; [reflexivity | split; [apply Hnd; discriminate|]]); cbn.
    - apply Permutation_refl.
    - apply perm_swap.
    - apply perm_swap. }
  split; [exact Hsame|]. split; [reflexivity|].
  apply (score_order_irrelevant batch_cat_dog batch_dog_cat);
    [exact Hsame | reflexivity].
Defined.

(** ** An image without detections at the end of a batch *)

Lemma for_each_app {S X : Type} (body : S -> X -> result S) (xs ys : list X)
    (s : S) :
  for_each body (xs ++ ys) s = (s' <- for_each body xs s ;; for_each body ys s').
Proof.
  revert s. induction xs as [|x xs IH]; intro s; simpl; [reflexivity|].
  destruct (body s x) as [s1|e]; simpl; [apply IH | reflexivity].
Qed.

Lemma enumerate_snoc {X : Type} (xs : list X) (x : X) :
  enumerate (xs ++ [x]) = enumerate xs ++ [(length xs, x)].
Proof.
  unfold enumerate.
  assert (H : forall k,
             combine (seq k (length (xs ++ [x]))) (xs ++ [x]) =
             combine (seq k (length xs)) xs ++ [(k + length xs, x)]).
  { induction xs as [|y xs IH]; intro k; simpl.
    - now rewrite Nat.add_0_r.
    - rewrite IH. now rewrite Nat.add_succ_r. }
  exact (H 0).
Qed.

(** X6.  Adding an image without detections at the end of a batch on which
    the function returns adds one slice made of padding rows and changes
    nothing else: the other slices, the number of rows and the number of
    columns stay. *)
Theorem append_empty_image (dets : list (list detection)) (t : ndarray3) :
  _dets_to_formatted_mat dets = Ok t ->
  exists n max_dets nc,
    shape t = [n; max_dets; 4 + 1 + nc] /\
    _dets_to_formatted_mat (dets ++ [[]]) =
      Ok (mk3 (slices t ++ [repeat (pad_row nc) max_dets])
              [S n; max_dets; 4 + 1 + nc]).
Proof.
  intro H. apply dets_to_formatted_mat_Ok in H.
  destruct H as (s & Hb & Hinv & _ & ->).
  exists (length dets), (list_max (map nrows (dets_mat_list s))), (num_classes s).
  split; [reflexivity|].
  pose proof (img_inv_ncols _ _ Hinv) as Hcols.
  assert (Hlen : length (dets_mat_list s) = length dets).
  { destruct Hinv as (_ & _ & Hm). symmetry. exact (Forall2_length Hm). }
  unfold _dets_to_formatted_mat, build_mats.
  rewrite enumerate_snoc, for_each_app.
  change (for_each img_body (enumerate dets) init_locals) with (build_mats dets).
  rewrite Hb. cbn [bind for_each]. rewrite img_body_no_detection. cbn [bind].
  rewrite pad_mats_Ok; cbn [dets_mat_list num_classes].
  - rewrite !map_app, list_max_app, length_app, Hlen. cbn [map list_max fold_right
      nrows data empty2 length].
    rewrite !Nat.max_0_r, Nat.sub_0_r, Nat.add_1_r. reflexivity.
  - destruct (dets_mat_list s); discriminate.
  - apply Forall_app. split; [assumption|]. constructor; [reflexivity | constructor].
Qed.

Lemma append_empty_image_witness :
  _dets_to_formatted_mat batch_late_labels =
    Ok (mk3 [[[1; 1; 1; 1; 0; 1]]; [[1; 1; 4; 5; 1 # 2; 1]]]%Q [2; 1; 6]) /\
  exists n max_dets nc,
    [2; 1; 6] = [n; max_dets; 4 + 1 + nc] /\
    _dets_to_formatted_mat (batch_late_labels ++ [[]]) =
      Ok (mk3 ([[[1; 1; 1; 1; 0; 1]]; [[1; 1; 4; 5; 1 # 2; 1]]]%Q
                 ++ [repeat (pad_row nc) max_dets])
              [S n; max_dets; 4 + 1 + nc]).
Proof.
  split; [vm_compute; reflexivity|].
  apply (append_empty_image batch_late_labels
           (mk3 [[[1; 1; 1; 1; 0; 1]]; [[1; 1; 4; 5; 1 # 2; 1]]]%Q [2; 1; 6])).
  vm_compute. reflexivity.
Defined.

(** ** The label list, once found *)

(** X7.  The label list is fixed once found: when the loop over a batch
    ends with a non-empty label list, the loop over that batch followed by
    further images ends with the same label list. *)
Theorem labels_fixed_once_found (dets more : list (list detection))
    (s s' : locals) :
  build_mats dets = Ok s ->
  labels s <> [] ->
  build_mats (dets ++ more) = Ok s' ->
  labels s' = labels s /\ num_classes s' = num_classes s.
Proof.
  intros H Hne H'.
  destruct (build_mats_inv _ _ H) as (Hnc & Hl & _).
  destruct (build_mats_inv _ _ H') as (Hnc' & Hl' & _).
  rewrite concat_app, first_nonempty_keys_app, <- Hl in Hl'.
  assert (Heq : labels s' = labels s)
    by (destruct (labels s); [congruence | exact Hl']).
  split; [exact Heq | congruence].
Qed.

Lemma labels_fixed_once_found_witness :
  exists s s',
    build_mats batch_late_labels = Ok s /\
    labels s <> [] /\
    build_mats (batch_late_labels ++ [[]; [(box_a, [("b", 1); ("a", 0)]%Q)]])
      = Ok s' /\
    labels s' = labels s /\ num_classes s' = num_classes s.
Proof.
  destruct (build_mats batch_late_labels) as [s|e] eqn:E;
    [|vm_compute in E; discriminate E].
  destruct (build_mats
              (batch_late_labels ++ [[]; [(box_a, [("b", 1); ("a", 0)]%Q)]]))
    as [s'|e] eqn:E'; [|vm_compute in E'; discriminate E'].
  assert (Hne : labels s <> []).
  { vm_compute in E. inversion E. discriminate. }
  exists s, s'. split; [reflexivity|]. split; [exact Hne|]. split; [reflexivity|].
  apply (labels_fixed_once_found batch_late_labels
           [[]; [(box_a, [("b", 1); ("a", 0)]%Q)]] s s');
    [exact E | exact Hne | exact E'].
Defined.

(** ** The normalization of one score list *)

(** X8.  The normalization of lines 167-171 never raises (the [max] and
    the [index] it uses are always defined); it keeps the length of the
    score list, every entry that is not strictly positive, and the number
    of strictly positive entries; and it returns a strictly positive
    objectness when it is given one. *)
Theorem normalization_keeps_scores (obj : Q) (scores : list Q) :
  exists obj' scores',
    single_class_score obj scores = Ok (obj', scores') /\
    length scores' = length scores /\
    length (filter Qpos scores') = length (filter Qpos scores) /\
    (forall i x, nth_error scores i = Some x -> (x <= 0)%Q ->
                 nth_error scores' i = Some x) /\
    ((0 < obj)%Q -> (0 < obj')%Q).
Proof.
  destruct (Nat.eq_dec (length (filter Qpos scores)) 1) as [Hone|Hother].
  - pose proof Hone as Hcount. apply count_positive_one in Hone.
    destruct Hone as (i & c & Hic).
    apply exactly_one_positive_split in Hic.
    destruct Hic as (pre & post & -> & _ & Hc & Hpre & Hpost).
    exists c, (pre ++ 1%Q :: post).
    split; [now apply single_class_score_one|].
    split; [now rewrite !length_app|]. split.
    + rewrite Hcount. apply count_positive_one. exists (length pre), 1%Q.
      apply exactly_one_positive_split. exists pre, post.
      repeat split; auto.
    + split; [|auto]. intros j x Hj Hx.
      destruct (Nat.lt_trichotomy j (length pre)) as [Hlt|[Heq|Hgt]].
      * rewrite nth_error_app1 in Hj by assumption.
        rewrite nth_error_app1 by assumption. exact Hj.
      * subst j. rewrite nth_error_app2 in Hj by lia.
        rewrite Nat.sub_diag in Hj. simpl in Hj. inversion Hj; subst x.
        exfalso. exact (Qlt_not_le _ _ Hc Hx).
      * rewrite nth_error_app2 in Hj by lia. rewrite nth_error_app2 by lia.
        destruct (j - length pre) as [|k] eqn:Ek; [lia | exact Hj].
  - exists obj, scores. split; [now apply single_class_score_other|]. auto.
Qed.

(** ** [_generate] without occluded image *)

(** X9.  When the detector returns no detection set (no image was
    occluded), [_generate] raises the [ValueError] of [max] on an empty
    sequence, whatever the reference detections are, and the saliency
    generator is not called. *)
Theorem generate_no_occluded_image
    (Image Masks Fill Saliency : Type)
    (perturber : Image -> result Masks)
    (generator : ndarray2 -> ndarray3 -> Masks -> result Saliency)
    (occlude_image_batch :
       Image -> Masks -> option Fill -> option Z -> result (list Image))
    (fill : option Fill) (threads : option Z)
    (ref_image : Image) (bboxes scores : ndarray2)
    (blackbox : list Image -> result (list (list detection)))
    (objectness : option (list Q))
    (ref : ndarray2) (masks : Masks) (occluded : list Image) :
  format_detection bboxes scores objectness = Ok ref ->
  perturber ref_image = Ok masks ->
  occlude_image_batch ref_image masks fill threads = Ok occluded ->
  blackbox occluded = Ok [] ->
  _generate Image Masks Fill Saliency perturber generator occlude_image_batch
            fill threads ref_image bboxes scores blackbox objectness =
    Raise ValueError_max_empty.
Proof.
  intros Href Hmasks Hocc Hdets. unfold _generate.
  rewrite Href. cbn [bind]. rewrite Hmasks. cbn [bind].
  rewrite Hocc. cbn [bind]. rewrite Hdets. reflexivity.
Qed.

Lemma generate_no_occluded_image_witness :
  format_detection ref_bboxes ref_scores None =
    Ok (mk2 [[0; 0; 2; 3; 1; 9 # 10; 1 # 10]%Q] 7) /\
  one_mask tt = Ok tt /\
  occlude_none tt tt None None = Ok [] /\
  blind_detector [] = Ok [] /\
  _generate unit unit unit (ndarray2 * ndarray3)
            one_mask echo_generator occlude_none None None
            tt ref_bboxes ref_scores blind_detector None =
    Raise ValueError_max_empty.
Proof.
  repeat (split; [reflexivity|]).
  apply (generate_no_occluded_image unit unit unit (ndarray2 * ndarray3)
           one_mask echo_generator occlude_none None None
           tt ref_bboxes ref_scores blind_detector None
           (mk2 [[0; 0; 2; 3; 1; 9 # 10; 1 # 10]%Q] 7) tt []);
    reflexivity.
Defined.

(** ** Configuration *)

Section ConfigProperties.
Variables Perturber Generator Json Impls Ext : Type.
Variable from_config_dict_p :
  cfg_value Perturber Generator Json -> Impls -> cfg_exn Ext + Perturber.
Variable from_config_dict_g :
  cfg_value Perturber Generator Json -> Impls -> cfg_exn Ext + Generator.
Variables impls_p impls_g : Impls.
Variable super_from_config :
  config Perturber Generator Json -> bool ->
  cfg_exn Ext + PerturbationOcclusion Perturber Generator.

Lemma cfg_getitem_missing (c : config Perturber Generator Json) (k : string) :
  ~ In k (cfg_keys Perturber Generator Json c) ->
  cfg_getitem Perturber Generator Json Ext c k = inl (CfgKeyError k).
Proof.
  induction c as [|[k' v] c IH]; simpl; [reflexivity|].
  intro H. destruct (String.eqb k' k) eqn:E.
  - apply String.eqb_eq in E. tauto.
  - apply IH. tauto.
Qed.

Lemma cfg_keys_setitem (c : config Perturber Generator Json) (k k' : string)
    (v : cfg_value Perturber Generator Json) :
  k' <> k ->
  ~ In k (cfg_keys Perturber Generator Json c) ->
  ~ In k (cfg_keys Perturber Generator Json
            (cfg_setitem Perturber Generator Json c k' v)).
Proof.
  intro Hne. induction c as [|[k0 v0] c IH]; simpl.
  - intros _ [H|[]]. congruence.
  - intro H. destruct (String.eqb k0 k'); simpl; intros [H'|H'];
      try (apply H; auto; fail).
    apply IH; [|assumption]. tauto.
Qed.

(** X10.  [from_config] needs the two keys: on a dictionary without
    ["perturber"], and on one without ["generator"] whose perturber entry
    is accepted, it raises the [KeyError] of that key, with [merge_default]
    true as with false; the parent class, which would merge the defaults,
    is not reached. *)
Theorem from_config_missing_key (config_dict : config Perturber Generator Json)
    (merge_default : bool) (k : string) :
  k = "perturber" \/
  (k = "generator" /\
   exists v p,
     cfg_getitem Perturber Generator Json Ext config_dict "perturber" = inr v /\
     from_config_dict_p v impls_p = inr p) ->
  ~ In k (cfg_keys Perturber Generator Json config_dict) ->
  from_config Perturber Generator Json Impls Ext
    from_config_dict_p from_config_dict_g impls_p impls_g super_from_config
    config_dict merge_default = inl (CfgKeyError k).
Proof.
  intros [->|(-> & v & p & Hv & Hp)] Hmiss; unfold from_config.
  - now rewrite cfg_getitem_missing.
  - rewrite Hv, Hp. rewrite cfg_getitem_missing; [reflexivity|].
    apply cfg_keys_setitem; [discriminate | assumption].
Qed.

Variable to_config_dict_p : Perturber -> Json.
Variable to_config_dict_g : Generator -> Json.

(** X11.  A configuration written by [get_config] is read back by
    [from_config] without [KeyError]: when the two nested configurations
    are accepted, the parent class is called with the re-made perturber and
    generator and the same [threads], in that key order.  The [fill]
    attribute is not part of the configuration: the dictionary is that of
    the instance as [__init__] makes it. *)
Theorem config_round_trip (self : PerturbationOcclusion Perturber Generator)
    (merge_default : bool) (p : Perturber) (g : Generator) :
  from_config_dict_p (VJson (to_config_dict_p (_perturber _ _ self))) impls_p
    = inr p ->
  from_config_dict_g (VJson (to_config_dict_g (_generator _ _ self))) impls_g
    = inr g ->
  from_config Perturber Generator Json Impls Ext
    from_config_dict_p from_config_dict_g impls_p impls_g super_from_config
    (get_config Perturber Generator Json to_config_dict_p to_config_dict_g self)
    merge_default =
  super_from_config
    [("perturber", VPerturber p); ("generator", VGenerator g);
     ("threads", VInt (_threads _ _ self))] merge_default /\
  get_config Perturber Generator Json to_config_dict_p to_config_dict_g self =
  get_config Perturber Generator Json to_config_dict_p to_config_dict_g
    (__init__ Perturber Generator
       (_perturber _ _ self) (_generator _ _ self) (_threads _ _ self)).
Proof.
  intros Hp Hg. split; [|reflexivity].
  unfold from_config, get_config. cbn [cfg_getitem String.eqb Ascii.eqb Bool.eqb].
  rewrite Hp. cbn [cfg_setitem cfg_getitem String.eqb Ascii.eqb Bool.eqb].
  rewrite Hg. reflexivity.
Qed.
End ConfigProperties.

Lemma from_config_missing_key_witness :
  ("generator" = "perturber" \/
   ("generator" = "generator" /\
    exists v p,
      cfg_getitem string string string unit
        [("perturber", VJson "sliding-window"); ("threads", VInt (Some 4%Z))]
        "perturber" = inr v /\
      by_name v tt = inr p)) /\
  ~ In "generator"
      (cfg_keys string string string
         [("perturber", VJson "sliding-window"); ("threads", VInt (Some 4%Z))]) /\
  from_config string string string unit unit by_name by_name tt tt construct
    [("perturber", VJson "sliding-window"); ("threads", VInt (Some 4%Z))] true
    = inl (CfgKeyError "generator").
Proof.
  assert (Hk : "generator" = "perturber" \/
               ("generator" = "generator" /\
                exists v p,
                  cfg_getitem string string string unit
                    [("perturber", VJson "sliding-window");
                     ("threads", VInt (Some 4%Z))] "perturber" = inr v /\
                  by_name v tt = inr p)).
  { right. split; [reflexivity|].
    exists (VJson "sliding-window"), "sliding-window". split; reflexivity. }
  assert (Hmiss : ~ In "generator"
            (cfg_keys string string string
               [("perturber", VJson "sliding-window");
                ("threads", VInt (Some 4%Z))])).
  { simpl. intros [H|[H|[]]]; discriminate H. }
  split; [exact Hk|]. split; [exact Hmiss|].
  apply (from_config_missing_key string string string unit unit
           by_name by_name tt tt construct
           [("perturber", VJson "sliding-window"); ("threads", VInt (Some 4%Z))]
           true "generator" Hk Hmiss).
Defined.

Lemma config_round_trip_witness :
  let self := mkPerturbationOcclusion string string
                "sliding-window" "drise" (Some 4%Z) (Some (FillInt 127)) in
  by_name (VJson (name_of (_perturber _ _ self))) tt = inr "sliding-window" /\
  by_name (VJson (name_of (_generator _ _ self))) tt = inr "drise" /\
  from_config string string string unit unit by_name by_name tt tt construct
    (get_config string string string name_of name_of self) true =
  construct
    [("perturber", VPerturber "sliding-window"); ("generator", VGenerator "drise");
     ("threads", VInt (_threads _ _ self))] true /\
  get_config string string string name_of name_of self =
  get_config string string string name_of name_of
    (__init__ string string
       (_perturber _ _ self) (_generator _ _ self) (_threads _ _ self)).
Proof.
  intro self. split; [reflexivity|]. split; [reflexivity|].
  apply (config_round_trip string string string unit unit
           by_name by_name tt tt construct name_of name_of
           self true "sliding-window" "drise");
    reflexivity.
Defined.

Section DefaultConfig.
Variables Perturber Generator Json Impls Ext : Type.
Variable make_default_config : Impls -> Json.
Variables impls_p impls_g : Impls.
Variable super_get_default_config : config Perturber Generator Json.

Lemma cfg_getitem_setitem_same (c : config Perturber Generator Json) (k : string)
    (v : cfg_value Perturber Generator Json) :
  cfg_getitem Perturber Generator Json Ext
    (cfg_setitem Perturber Generator Json c k v) k = inr v.
Proof.
  induction c as [|[k' v'] c IH]; simpl.
  - now rewrite String.eqb_refl.
  - destruct (String.eqb k' k) eqn:E; simpl; rewrite E; [reflexivity | exact IH].
Qed.

Lemma cfg_getitem_setitem_other (c : config Perturber Generator Json)
    (k k' : string) (v : cfg_value Perturber Generator Json) :
  k' <> k ->
  cfg_getitem Perturber Generator Json Ext
    (cfg_setitem Perturber Generator Json c k v) k' =
  cfg_getitem Perturber Generator Json Ext c k'.
Proof.
  intro Hne. induction c as [|[k0 v0] c IH]; simpl.
  - destruct (String.eqb k k') eqn:E; [|reflexivity].
    apply String.eqb_eq in E. congruence.
  - destruct (String.eqb k0 k) eqn:E; simpl.
    + apply String.eqb_eq in E. subst k0.
      destruct (String.eqb k k') eqn:E'; [|reflexivity].
      apply String.eqb_eq in E'. congruence.
    + now rewrite IH.
Qed.

(** X12.  In the default configuration the entries ["perturber"] and
    ["generator"] are the default configurations of the two families of
    implementations, whatever the parent class had put under these keys,
    and every other entry is the parent's. *)
Theorem default_config_entries (k : string) :
  k <> "perturber" -> k <> "generator" ->
  let cfg := get_default_config Perturber Generator Json Impls
               make_default_config impls_p impls_g super_get_default_config in
  cfg_getitem Perturber Generator Json Ext cfg "perturber" =
    inr (VJson (make_default_config impls_p)) /\
  cfg_getitem Perturber Generator Json Ext cfg "generator" =
    inr (VJson (make_default_config impls_g)) /\
  cfg_getitem Perturber Generator Json Ext cfg k =
    cfg_getitem Perturber Generator Json Ext super_get_default_config k.
Proof.
  intros Hp Hg. unfold get_default_config. cbv zeta. split; [|split].
  - rewrite cfg_getitem_setitem_other by discriminate.
    apply cfg_getitem_setitem_same.
  - apply cfg_getitem_setitem_same.
  - now rewrite !cfg_getitem_setitem_other.
Qed.
End DefaultConfig.

Lemma default_config_entries_witness :
  "threads" <> "perturber" /\ "threads" <> "generator" /\
  cfg_getitem string string string unit
    (get_default_config string string string unit default_of tt tt parent_default)
    "perturber" = inr (VJson (default_of tt)) /\
  cfg_getitem string string string unit
    (get_default_config string string string unit default_of tt tt parent_default)
    "generator" = inr (VJson (default_of tt)) /\
  cfg_getitem string string string unit
    (get_default_config string string string unit default_of tt tt parent_default)
    "threads" =
  cfg_getitem string string string unit parent_default "threads".
Proof.
  split; [discriminate|]. split; [discriminate|].
  apply (default_config_entries string string string unit unit
           default_of tt tt parent_default "threads"); discriminate.
Defined.

(** ** The columns of a detection row *)



